(** * LED-matrix examples: snake game, falling stars and the XY mapper

    A shallow embedding of
      - [examples/Snake/WS_Matrix.cpp]       (module [Snake]),
      - [lib/MatrixUtil/MatrixUtil.h]        (module [MatrixUtil]),
      - [examples/FallingStars/src/main.cpp] (module [FallingStars]),
    together with the properties of these programs.

    Fixed-width C integers are values of [Z] with the conversions written
    out ([Machine]); C arrays are lists updated by index; the Arduino
    pseudo-random generator is an explicit stream of raw outputs ([Rng]). *)

From Stdlib Require Import ZArith Lia Bool List Ascii.
From Stdlib Require Import Floats.SpecFloat.
From stdpp Require Import base list.

Local Open Scope Z_scope.

(** ** Machine integers *)

Module Machine.

(** Conversion to [uint8_t]. *)
Definition to_u8 (z : Z) : Z := z mod 256.

(** Conversion to [int8_t] (two's complement wrap-around). *)
Definition to_i8 (z : Z) : Z := (z + 128) mod 256 - 128.

(** Conversion to [uint16_t]. *)
Definition to_u16 (z : Z) : Z := z mod 65536.

End Machine.

(** ** The pseudo-random generator

    [random(lo, hi)] belongs to the Arduino core, not to this repository.
    It is modelled by its contract: the generator hands out a raw value
    and the call returns [lo + raw mod (hi - lo)], a value of [lo, hi);
    with an empty interval it returns [lo] and draws nothing. The raw
    outputs are an explicit stream, so every run is a function of it. *)

Module Rng.

Record t : Type := mk { draws : nat -> Z; pos : nat }.

Definition random (lo hi : Z) (g : t) : Z * t :=
  if hi <=? lo then (lo, g)
  else (lo + draws g (pos g) mod (hi - lo), mk (draws g) (S (pos g))).

(** The stream that replays the list [l] and then repeats [d]. *)
Definition of_list (l : list Z) (d : Z) : t := mk (fun n => nth n l d) O.

End Rng.

(** ** The snake game ([examples/Snake/WS_Matrix.cpp]) *)

Module Point.
(** [struct Point { int8_t x; int8_t y; }] *)
Record t : Type := mk { x : Z; y : Z }.

Definition eqb (p q : t) : bool := (x p =? x q) && (y p =? y q).

#[global] Instance inhabited : Inhabited t := populate (mk 0 0).

#[global] Instance eq_dec : EqDecision t.
Proof. solve_decision. Defined.
End Point.

Module Snake.
Import Machine.

(** [WS_Matrix.h] *)
Definition Matrix_Row : Z := 8.
Definition Matrix_Col : Z := 8.
Definition RGB_COUNT : Z := 64.
Definition MAX_SNAKE_LENGTH : Z := 64.

(** The game variables: [snake], [snakeLength], [food], [gameOver].
    The NeoPixel object [pixels] is the display and is not part of the
    game state; [MoveSnake] reaches it only through
    [GameOverAnimation], which assigns no game variable. *)
Record Game : Type := mkGame {
  snake : list Point.t;      (* Point snake[MAX_SNAKE_LENGTH] *)
  snakeLength : Z;           (* uint8_t *)
  food : Point.t;
  gameOver : bool
}.

Definition set_snake (a : list Point.t) (s : Game) : Game :=
  mkGame a (snakeLength s) (food s) (gameOver s).
Definition set_food (f : Point.t) (s : Game) : Game :=
  mkGame (snake s) (snakeLength s) f (gameOver s).
Definition set_gameOver (b : bool) (s : Game) : Game :=
  mkGame (snake s) (snakeLength s) (food s) b.

(** [for (i = from; i < snakeLength; i++) if (snake[i] == p) ...]:
    [count] iterations starting at index [i]. *)
Fixpoint hits (i : nat) (count : nat) (a : list Point.t) (p : Point.t) : bool :=
  match count with
  | O => false
  | S c => if Point.eqb (a !!! i) p then true else hits (S i) c a p
  end.

(** The scan of [GenerateFood]: does the food overlap the snake? *)
Definition food_on_snake (s : Game) : bool :=
  hits 0 (Z.to_nat (snakeLength s)) (snake s) (food s).

(** [GenerateFood]: the [while (!validPosition)] loop, at most [fuel]
    rounds. Each round draws the row, then the column. *)
Fixpoint GenerateFood (fuel : nat) (g : Rng.t) (s : Game) : option (Game * Rng.t) :=
  match fuel with
  | O => None
  | S k =>
      let (fx, g1) := Rng.random 0 Matrix_Row g in
      let (fy, g2) := Rng.random 0 Matrix_Col g1 in
      let s1 := set_food (Point.mk (to_i8 fx) (to_i8 fy)) s in
      if food_on_snake s1 then GenerateFood k g2 s1 else Some (s1, g2)
  end.

(** [Snake_Init] *)
Definition Snake_Init (fuel : nat) (g : Rng.t) (s : Game) : option (Game * Rng.t) :=
  let a := <[2%nat := Point.mk 2 4]>
             (<[1%nat := Point.mk 3 4]> (<[0%nat := Point.mk 4 4]> (snake s))) in
  match GenerateFood fuel g (mkGame a 3 (food s) (gameOver s)) with
  | None => None
  | Some (s1, g1) => Some (set_gameOver false s1, g1)
  end.

(** [GetSnakeLength] *)
Definition GetSnakeLength (s : Game) : Z := snakeLength s.

(** The [switch (direction)] of [MoveSnake]; no [default] case. *)
Definition step_head (direction : Z) (h : Point.t) : Point.t :=
  match direction with
  | 0 => Point.mk (to_i8 (Point.x h - 1)) (Point.y h)
  | 1 => Point.mk (Point.x h) (to_i8 (Point.y h + 1))
  | 2 => Point.mk (to_i8 (Point.x h + 1)) (Point.y h)
  | 3 => Point.mk (Point.x h) (to_i8 (Point.y h - 1))
  | _ => h
  end.

(** The four edge tests of [MoveSnake], in order. *)
Definition wrap_axis (bound v : Z) : Z :=
  let v1 := if v <? 0 then bound - 1 else v in
  if v1 >=? bound then 0 else v1.

Definition wrap_head (p : Point.t) : Point.t :=
  Point.mk (wrap_axis Matrix_Row (Point.x p)) (wrap_axis Matrix_Col (Point.y p)).

(** The head [MoveSnake] tries to move to. *)
Definition new_head (direction : Z) (s : Game) : Point.t :=
  wrap_head (step_head (to_u8 direction) (snake s !!! 0%nat)).

(** [for (int8_t i = start; i > 0; i--) snake[i] = snake[i - 1];] *)
Fixpoint shift_body (i : nat) (a : list Point.t) : list Point.t :=
  match i with
  | O => a
  | S j => shift_body j (<[S j := a !!! j]> a)
  end.

(** The grow branch up to [snakeLength++]: every segment moves one
    slot toward the tail, slot 0 still holds the old head. *)
Definition grow (s : Game) : Game :=
  mkGame (shift_body (Z.to_nat (to_i8 (snakeLength s))) (snake s))
         (to_u8 (snakeLength s + 1)) (food s) (gameOver s).

(** [MoveSnake]. Result codes: 0 game over, 1 normal move, 2 food eaten.
    [None] only when [GenerateFood] needs more than [fuel] rounds. *)
Definition MoveSnake (fuel : nat) (g : Rng.t) (direction : Z) (s : Game)
  : option (Z * Game * Rng.t) :=
  if gameOver s then Some (0, s, g) else
  let newHead := new_head direction s in
  if (1 <? snakeLength s) && Point.eqb (snake s !!! 1%nat) newHead
  then Some (1, s, g)
  else if hits 2 (Z.to_nat (snakeLength s - 2)) (snake s) newHead
  then Some (0, set_gameOver true s, g)
  else
    let foodEaten := Point.eqb newHead (food s) in
    if negb foodEaten then
      let a := shift_body (Z.to_nat (to_i8 (snakeLength s - 1))) (snake s) in
      Some (1, set_snake (<[0%nat := newHead]> a) s, g)
    else if snakeLength s <? MAX_SNAKE_LENGTH then
      match GenerateFood fuel g (grow s) with
      | None => None
      | Some (s2, g2) => Some (2, set_snake (<[0%nat := newHead]> (snake s2)) s2, g2)
      end
    else Some (2, set_snake (<[0%nat := newHead]> (snake s)) s, g).

(** Consecutive calls of [MoveSnake], one per direction of [ds], with
    the result codes in call order. *)
Fixpoint MoveSnake_seq (fuel : nat) (g : Rng.t) (ds : list Z) (s : Game)
  : option (list Z * Game * Rng.t) :=
  match ds with
  | [] => Some ([], s, g)
  | d :: ds' =>
      match MoveSnake fuel g d s with
      | None => None
      | Some (r, s1, g1) =>
          match MoveSnake_seq fuel g1 ds' s1 with
          | None => None
          | Some (rs, s2, g2) => Some (r :: rs, s2, g2)
          end
      end
  end.

(** The live part of the array: segments [0 .. snakeLength - 1]. *)
Definition body (s : Game) : list Point.t :=
  take (Z.to_nat (snakeLength s)) (snake s).

Definition on_board (p : Point.t) : Prop :=
  0 <= Point.x p < Matrix_Row /\ 0 <= Point.y p < Matrix_Col.

(** What the C types and the array bound guarantee. *)
Definition wf (s : Game) : Prop :=
  length (snake s) = Z.to_nat MAX_SNAKE_LENGTH /\
  0 <= snakeLength s <= MAX_SNAKE_LENGTH.

Definition valid_direction (d : Z) : Prop := 0 <= d <= 3.

(** The cell that round [k] of [GenerateFood] draws from [g]. *)
Definition sample (g : Rng.t) (k : nat) : Point.t :=
  Point.mk (Rng.draws g (Rng.pos g + 2 * k)%nat mod Matrix_Row)
           (Rng.draws g (Rng.pos g + 2 * k + 1)%nat mod Matrix_Col).

(** [g] serves [s]: some round of [GenerateFood] draws a cell its scan
    accepts. *)
Definition serves (g : Rng.t) (s : Game) : Prop :=
  exists k, food_on_snake (set_food (sample g k) s) = false.

(** [g] is fair for a move from [s]: should the snake grow, [g] serves
    the grown snake. *)
Definition fair (g : Rng.t) (s : Game) : Prop :=
  snakeLength s < MAX_SNAKE_LENGTH -> serves g (grow s).

(** The cells of the board, row by row. *)
Definition board : list Point.t :=
  flat_map (fun r => map (fun c => Point.mk (Z.of_nat r) (Z.of_nat c))
                         (seq 0 (Z.to_nat Matrix_Col)))
           (seq 0 (Z.to_nat Matrix_Row)).

(** A generator whose first round draws the cell [p]. *)
Definition draws_cell (p : Point.t) : Rng.t :=
  Rng.of_list [Point.x p; Point.y p] 0.

(** The six ways out of [MoveSnake], as a relation between the state
    on entry, the result code and the state on return: the latch, the
    reversal guard, the self collision, the plain move, the growing
    move (with the food [f] that [GenerateFood] settles on) and the
    move onto the food with the array full. *)
Inductive move_case (d : Z) (s : Game) : Z -> Game -> Prop :=
| case_latched :
    gameOver s = true -> move_case d s 0 s
| case_reversal :
    gameOver s = false -> 1 < snakeLength s ->
    snake s !!! 1%nat = new_head d s ->
    move_case d s 1 s
| case_collision :
    gameOver s = false ->
    hits 2 (Z.to_nat (snakeLength s - 2)) (snake s) (new_head d s) = true ->
    move_case d s 0 (set_gameOver true s)
| case_move :
    gameOver s = false -> new_head d s <> food s ->
    move_case d s 1
      (set_snake (<[0%nat := new_head d s]>
                    (shift_body (Z.to_nat (to_i8 (snakeLength s - 1))) (snake s))) s)
| case_grow f :
    gameOver s = false -> new_head d s = food s ->
    snakeLength s < MAX_SNAKE_LENGTH ->
    on_board f -> food_on_snake (set_food f (grow s)) = false ->
    move_case d s 2
      (mkGame (<[0%nat := new_head d s]> (snake (grow s)))
              (snakeLength (grow s)) f false)
| case_full :
    gameOver s = false -> new_head d s = food s ->
    MAX_SNAKE_LENGTH <= snakeLength s ->
    move_case d s 2 (set_snake (<[0%nat := new_head d s]> (snake s)) s).

(** The array at power-up: globals are zero-initialised, and
    [snakeLength = 3]. *)
Definition power_up : Game :=
  mkGame (replicate 64 (Point.mk 0 0)) 3 (Point.mk 0 0) false.

(** A generator whose raw outputs are all [0]. *)
Definition rng0 : Rng.t := Rng.of_list [] 0.

(** The game right after [Snake_Init] when the generator is [rng0]:
    the three-segment snake and the food at [(0, 0)]. *)
Definition start : Game :=
  mkGame ([Point.mk 4 4; Point.mk 3 4; Point.mk 2 4] ++ replicate 61 (Point.mk 0 0))
         3 (Point.mk 0 0) false.

(** The same snake with the food one cell to the right of the head. *)
Definition start_fed : Game := set_food (Point.mk 4 5) start.

(** A game with the array full: the head at [(4, 4)], every other
    segment at [(4, 3)], the food at [(4, 5)]. *)
Definition packed : Game :=
  mkGame (Point.mk 4 4 :: replicate 63 (Point.mk 4 3)) 64 (Point.mk 4 5) false.

End Snake.


(** ** The XY mapper ([lib/MatrixUtil/MatrixUtil.h]) *)

Module MatrixUtil.
Import Machine.

(** The preprocessor configuration the header is compiled under.
    [MATRIX_WIDTH] and [MATRIX_HEIGHT] come from [config/BoardConfig.h],
    which is not among the sources: they are parameters here. The
    other four macros default to [0] in the header; a flag is [true]
    when its macro is non-zero. *)
Record PanelConfig : Type := mkPanel {
  MATRIX_WIDTH : Z;
  MATRIX_HEIGHT : Z;
  PANEL_WIRING_SERPENTINE : bool;
  PANEL_ROTATION : Z;
  PANEL_FLIP_X : bool;
  PANEL_FLIP_Y : bool
}.

Section Mapper.
Variable cfg : PanelConfig.
Let W := MATRIX_WIDTH cfg.
Let H := MATRIX_HEIGHT cfg.

(** [if (x >= MATRIX_WIDTH) x = MATRIX_WIDTH - 1;] and the same for [y]. *)
Definition clamp (p : Z * Z) : Z * Z :=
  let (x, y) := p in
  (if x >=? W then to_u8 (W - 1) else x,
   if y >=? H then to_u8 (H - 1) else y).

(** The [#if PANEL_ROTATION == 90 ... #elif ... #endif] chain. *)
Definition rotate (p : Z * Z) : Z * Z :=
  let (x, y) := p in
  if PANEL_ROTATION cfg =? 90 then (to_u8 (W - 1 - y), to_u8 x)
  else if PANEL_ROTATION cfg =? 180 then (to_u8 (W - 1 - x), to_u8 (H - 1 - y))
  else if PANEL_ROTATION cfg =? 270 then (to_u8 y, to_u8 (H - 1 - x))
  else (x, y).

(** [#if PANEL_FLIP_X] and [#if PANEL_FLIP_Y]. *)
Definition flip (p : Z * Z) : Z * Z :=
  let (x, y) := p in
  let x1 := if PANEL_FLIP_X cfg then to_u8 (W - 1 - x) else x in
  let y1 := if PANEL_FLIP_Y cfg then to_u8 (H - 1 - y) else y in
  (x1, y1).

(** The wiring block; the sum is computed in [int] and returned as
    [uint16_t]. *)
Definition wire (p : Z * Z) : Z :=
  let (x, y) := p in
  if PANEL_WIRING_SERPENTINE cfg then
    if negb (Z.land y 1 =? 0) then to_u16 (y * W + (W - 1 - x))
    else to_u16 (y * W + x)
  else to_u16 (y * W + x).

(** [static inline uint16_t MU_XY(uint8_t x, uint8_t y)] *)
Definition MU_XY (x y : Z) : Z :=
  wire (flip (rotate (clamp (to_u8 x, to_u8 y)))).

End Mapper.

(** The configuration the header falls back to: progressive wiring, no
    rotation, no flips. *)
Definition default_panel (w h : Z) : PanelConfig :=
  mkPanel w h false 0 false false.

(** A logical cell of the panel. *)
Definition in_panel (cfg : PanelConfig) (p : Z * Z) : Prop :=
  0 <= fst p < MATRIX_WIDTH cfg /\ 0 <= snd p < MATRIX_HEIGHT cfg.

(** The panels the mapper is meant for: both sides fit [uint8_t]
    coordinates, the rotation is one of the four the header tests for,
    and a quarter turn is applied to a square panel only (the formulas
    keep [MATRIX_WIDTH] and [MATRIX_HEIGHT] in place when they turn). *)
Definition panel_ok (cfg : PanelConfig) : Prop :=
  0 < MATRIX_WIDTH cfg <= 256 /\ 0 < MATRIX_HEIGHT cfg <= 256 /\
  (PANEL_ROTATION cfg = 0 \/ PANEL_ROTATION cfg = 90 \/
   PANEL_ROTATION cfg = 180 \/ PANEL_ROTATION cfg = 270) /\
  (PANEL_ROTATION cfg = 90 \/ PANEL_ROTATION cfg = 270 ->
   MATRIX_WIDTH cfg = MATRIX_HEIGHT cfg).

End MatrixUtil.

(** ** Single and double precision arithmetic

    [float] is IEEE binary32 and [double] binary64, both rounding to
    nearest even; the standard library's [SpecFloat] computes them
    exactly on integers. *)

Module Fp.

Definition add32 : spec_float -> spec_float -> spec_float := SFadd 24 128.
Definition add64 : spec_float -> spec_float -> spec_float := SFadd 53 1024.

(** [(float)n] for an integer [n]. *)
Definition of_int (n : Z) : spec_float := binary_normalize 24 128 n 0 false.

(** [(double)f]: every binary32 value is a binary64 value. *)
Definition to_double (f : spec_float) : spec_float := f.

(** [(float)d]: round the double to binary32. *)
Definition to_float (d : spec_float) : spec_float :=
  match d with
  | S754_finite s m e => binary_normalize 24 128 (cond_Zopp s (Zpos m)) e s
  | _ => d
  end.

(** The literal [0.3], a double: the binary64 nearest to 3/10. *)
Definition lit_0_3 : spec_float :=
  SFdiv 53 1024 (binary_normalize 53 1024 3 0 false)
                (binary_normalize 53 1024 10 0 false).

(** [(int)f]: truncation toward zero. Converting a NaN or an infinity
    is undefined in C; the simulator never does it. *)
Definition to_int (f : spec_float) : Z :=
  match f with
  | S754_finite s m e =>
      cond_Zopp s (if 0 <=? e then Zpos m * 2 ^ e else Zpos m / 2 ^ (- e))
  | _ => 0
  end.

End Fp.

(** ** Falling stars ([examples/FallingStars/src/main.cpp]) *)

Module CRGB.
(** FastLED's pixel type: three [uint8_t] channels. *)
Record t : Type := mk { r : Z; g : Z; b : Z }.
Definition Black : t := mk 0 0 0.
#[global] Instance inhabited : Inhabited t := populate Black.
#[global] Instance eq_dec : EqDecision t.
Proof. solve_decision. Defined.
End CRGB.

Module Particle.
(** [struct Particle { float x, y; float vy; CRGB color; bool active; }] *)
Record t : Type := mk {
  x : spec_float;
  y : spec_float;
  vy : spec_float;
  color : CRGB.t;
  active : bool
}.
#[global] Instance inhabited : Inhabited t :=
  populate (mk (S754_zero false) (S754_zero false) (S754_zero false) CRGB.Black false).
End Particle.

Module FallingStars.
Import Machine MatrixUtil.

Definition MAX_PARTICLES : nat := 12.

(** The globals of the sketch: [particles], [grid] (indexed
    [grid[x][y]]) and the frame buffer [leds]. *)
Record Sim : Type := mkSim {
  particles : list Particle.t;
  grid : list (list Z);
  leds : list CRGB.t
}.

Definition grid_get (gr : list (list Z)) (x y : Z) : Z :=
  (gr !!! Z.to_nat x) !!! Z.to_nat y.

Definition grid_set (gr : list (list Z)) (x y v : Z) : list (list Z) :=
  <[Z.to_nat x := <[Z.to_nat y := v]> (gr !!! Z.to_nat x)]> gr.

Section Board.
Variable cfg : PanelConfig.
Let W := MATRIX_WIDTH cfg.
Let H := MATRIX_HEIGHT cfg.

Definition NUM_LEDS : Z := W * H.

(** The globals before [setup]: zero-initialised storage. *)
Definition power_up : Sim :=
  mkSim (replicate MAX_PARTICLES inhabitant)
        (replicate (Z.to_nat W) (replicate (Z.to_nat H) 0))
        (replicate (Z.to_nat NUM_LEDS) CRGB.Black).

(** [setup]: every particle inactive, the grid and the frame cleared
    (the serial banner and the LED driver are outside the model). *)
Definition setup (st : Sim) : Sim :=
  mkSim (map (fun p => Particle.mk (Particle.x p) (Particle.y p) (Particle.vy p)
                                   (Particle.color p) false) (particles st))
        (replicate (Z.to_nat W) (replicate (Z.to_nat H) 0))
        (replicate (Z.to_nat NUM_LEDS) CRGB.Black).

(** The [switch (colorChoice)] of [spawnParticle]; no [default]. *)
Definition palette (colorChoice : Z) (old : CRGB.t) : CRGB.t :=
  match colorChoice with
  | 0 => CRGB.mk 255 0 0
  | 1 => CRGB.mk 0 255 0
  | 2 => CRGB.mk 0 0 255
  | 3 => CRGB.mk 255 255 0
  | 4 => CRGB.mk 255 0 255
  | 5 => CRGB.mk 0 255 255
  | _ => old
  end.

(** The loop of [spawnParticle]: [count] slots left to try from [i];
    the first inactive slot is filled and the loop breaks. *)
Fixpoint spawn_from (i count : nat) (g : Rng.t) (st : Sim) : Sim * Rng.t :=
  match count with
  | O => (st, g)
  | S c =>
      let p := particles st !!! i in
      if negb (Particle.active p) then
        let (rx, g1) := Rng.random 0 W g in
        let (rc, g2) := Rng.random 0 6 g1 in
        let p1 := Particle.mk (Fp.of_int rx) (Fp.of_int 0) (Fp.of_int 0)
                              (palette (to_u8 rc) (Particle.color p)) true in
        (mkSim (<[i := p1]> (particles st)) (grid st) (leds st), g2)
      else spawn_from (S i) c g st
  end.

Definition spawnParticle (g : Rng.t) (st : Sim) : Sim * Rng.t :=
  spawn_from 0 MAX_PARTICLES g st.

(** One round of the physics loop of [loop], for slot [i]. *)
Definition update_particle (i : nat) (st : Sim) : Sim :=
  let p := particles st !!! i in
  if Particle.active p then
    let vy1 := Fp.to_float (Fp.add64 (Fp.to_double (Particle.vy p)) Fp.lit_0_3) in
    let y1 := Fp.add32 (Particle.y p) vy1 in
    let ix := Fp.to_int (Particle.x p) in
    let iy := Fp.to_int y1 in
    let moved := Particle.mk (Particle.x p) y1 vy1 (Particle.color p) true in
    let settled := Particle.mk (Particle.x p) y1 vy1 (Particle.color p) false in
    if iy >=? H - 1 then
      mkSim (<[i := settled]> (particles st))
            (grid_set (grid st) ix (H - 1) (to_u8 (Z.of_nat i + 1))) (leds st)
    else if (0 <=? iy) && (iy <? H - 1) then
      if negb (grid_get (grid st) ix (iy + 1) =? 0) then
        mkSim (<[i := settled]> (particles st))
              (grid_set (grid st) ix iy (to_u8 (Z.of_nat i + 1))) (leds st)
      else mkSim (<[i := moved]> (particles st)) (grid st) (leds st)
    else mkSim (<[i := moved]> (particles st)) (grid st) (leds st)
  else st.

(** [for (int i = 0; i < MAX_PARTICLES; i++)] over the pool. *)
Definition physics (st : Sim) : Sim :=
  fold_left (fun s i => update_particle i s) (seq 0 MAX_PARTICLES) st.

(** "Draw settled particles": one cell of the double loop. *)
Definition draw_cell (st : Sim) (fb : list CRGB.t) (xy : Z * Z) : list CRGB.t :=
  let (x, y) := xy in
  if negb (grid_get (grid st) x y =? 0) then
    let idx := to_u8 (grid_get (grid st) x y - 1) in
    <[Z.to_nat (MU_XY cfg x y) := Particle.color (particles st !!! Z.to_nat idx)]> fb
  else fb.

(** The cells in the order the double loop visits them: [x] outer,
    [y] inner. *)
Definition cells : list (Z * Z) :=
  flat_map (fun x => map (fun y => (Z.of_nat x, Z.of_nat y)) (seq 0 (Z.to_nat H)))
           (seq 0 (Z.to_nat W)).

(** "Draw falling particles": one slot. *)
Definition draw_falling (st : Sim) (fb : list CRGB.t) (i : nat) : list CRGB.t :=
  let p := particles st !!! i in
  if Particle.active p then
    let ix := Fp.to_int (Particle.x p) in
    let iy := Fp.to_int (Particle.y p) in
    if (0 <=? ix) && (ix <? W) && (0 <=? iy) && (iy <? H) then
      <[Z.to_nat (MU_XY cfg ix iy) := Particle.color p]> fb
    else fb
  else fb.

(** The render part of [loop]: clear, settled cells, falling particles. *)
Definition render (st : Sim) : Sim :=
  let fb0 := replicate (Z.to_nat NUM_LEDS) CRGB.Black in
  let fb1 := fold_left (draw_cell st) cells fb0 in
  let fb2 := fold_left (draw_falling st) (seq 0 MAX_PARTICLES) fb1 in
  mkSim (particles st) (grid st) fb2.

(** One call of [loop] (the frame export and the delay are outside
    the model). *)
Definition loop (g : Rng.t) (st : Sim) : Sim * Rng.t :=
  let (roll, g1) := Rng.random 0 100 g in
  let (st1, g2) := if roll <? 30 then spawnParticle g1 st else (st, g1) in
  (render (physics st1), g2).

(** [n] calls of [loop]. *)
Fixpoint run (n : nat) (g : Rng.t) (st : Sim) : Sim * Rng.t :=
  match n with
  | O => (st, g)
  | S k => let (st1, g1) := loop g st in run k g1 st1
  end.

(** The colour [render] gives the settled cell [(x, y)]. *)
Definition cell_color (st : Sim) (x y : Z) : CRGB.t :=
  leds st !!! Z.to_nat (MU_XY cfg x y).

(** The slot a non-empty cell refers to. *)
Definition owner (st : Sim) (x y : Z) : Particle.t :=
  particles st !!! Z.to_nat (to_u8 (grid_get (grid st) x y - 1)).

(** The settled-grid invariant of the data model, as a test: every
    non-empty cell refers to an inactive particle. *)
Definition owners_inactive (st : Sim) : bool :=
  forallb (fun xy => let (x, y) := xy : Z * Z in
                     (grid_get (grid st) x y =? 0)
                     || negb (Particle.active (owner st x y)))
          cells.

End Board.

(** The 8 by 8 board of the examples, default wiring. *)
Definition board8 : PanelConfig := default_panel 8 8.

(** The simulator once [setup] has run. *)
Definition boot : Sim := setup board8 (power_up board8).

(** The integer row [(int)particles[i].y] of slot [i]. *)
Definition row_of (st : Sim) (i : nat) : Z :=
  Fp.to_int (Particle.y (particles st !!! i)).

(** Raw generator outputs for a run in which [loop] spawns a red
    particle in column 3 on its first call (roll 0, column 3, colour 0),
    spawns nothing for six calls (roll 99), and spawns a green particle
    in column 5 on the eighth call. *)
Definition respawn_draws : Rng.t :=
  Rng.of_list [0; 3; 0; 99; 99; 99; 99; 99; 99; 0; 5; 1] 99.

(** Raw generator outputs for a run with three particles in column 3:
    one spawned on the first call, one on the second, one on the eighth. *)
Definition stack_draws : Rng.t :=
  Rng.of_list [0; 3; 0; 0; 3; 1; 99; 99; 99; 99; 99; 0; 3; 2] 99.

End FallingStars.

(** ** More of the XY mapper's header: calibration and frame export *)

Module MatrixUtilFrames.
Import Machine MatrixUtil.

(** [%02X] of a [uint8_t]: two upper-case hexadecimal digits. *)
Definition hex_digit (n : Z) : ascii :=
  match n with
  | 0 => "0" | 1 => "1" | 2 => "2" | 3 => "3"
  | 4 => "4" | 5 => "5" | 6 => "6" | 7 => "7"
  | 8 => "8" | 9 => "9" | 10 => "A" | 11 => "B"
  | 12 => "C" | 13 => "D" | 14 => "E" | 15 => "F"
  | _ => "?"
  end%char.

Definition hex2 (v : Z) : list ascii := [hex_digit (v / 16); hex_digit (v mod 16)].

(** The value of a hexadecimal digit, as a reader of the frame takes it. *)
Definition hex_value (c : ascii) : Z :=
  let n := Z.of_nat (nat_of_ascii c) in
  if n <? 58 then n - 48 else n - 55.

(** [sprintf(buf, "%02X%02X%02X,", c.r, c.g, c.b)] *)
Definition frame_record (c : CRGB.t) : list ascii :=
  hex2 (CRGB.r c) ++ hex2 (CRGB.g c) ++ hex2 (CRGB.b c) ++ [","%char].

(** The text ["FRAME:"] and the line end of [Serial.println()]. *)
Definition frame_tag : list ascii := ["F"; "R"; "A"; "M"; "E"; ":"]%char.
Definition line_end : list ascii := ["013"; "010"]%char.

(** A pixel whose channels are [uint8_t] values. *)
Definition byte_colour (c : CRGB.t) : Prop :=
  0 <= CRGB.r c < 256 /\ 0 <= CRGB.g c < 256 /\ 0 <= CRGB.b c < 256.

Section Frames.
Variable cfg : PanelConfig.

(** The cells in the order [MU_SendFrameCSV] visits them: [y] outer,
    [x] inner. *)
Definition scan : list (Z * Z) :=
  flat_map (fun y => map (fun x => (Z.of_nat x, Z.of_nat y))
                         (seq 0 (Z.to_nat (MATRIX_WIDTH cfg))))
           (seq 0 (Z.to_nat (MATRIX_HEIGHT cfg))).

(** The record printed for one cell. *)
Definition cell_record (leds : list CRGB.t) (xy : Z * Z) : list ascii :=
  frame_record (leds !!! Z.to_nat (MU_XY cfg (fst xy) (snd xy))).

(** [MU_SendFrameCSV]: the characters written to the serial port. *)
Definition MU_SendFrameCSV (leds : list CRGB.t) : list ascii :=
  frame_tag ++ flat_map (cell_record leds) scan ++ line_end.


End Frames.
End MatrixUtilFrames.

(** ** More of the falling stars: state predicates *)

Module FallingStarsMore.
Import Machine MatrixUtil FallingStars.

(** Every active particle is in a column of the grid. *)
Definition columns_ok (cfg : PanelConfig) (st : Sim) : Prop :=
  Forall (fun p => Particle.active p = true ->
                   0 <= Fp.to_int (Particle.x p) < MATRIX_WIDTH cfg)
         (particles st).

(** No active particle is drawn over the cell [(x, y)]. *)
Definition no_faller_at (st : Sim) (x y : Z) : Prop :=
  forall i, (i < MAX_PARTICLES)%nat ->
    Particle.active (particles st !!! i) = true ->
    (Fp.to_int (Particle.x (particles st !!! i)),
     Fp.to_int (Particle.y (particles st !!! i))) <> (x, y).

(** The six colours of [spawnParticle]. *)
Definition vibrant : list CRGB.t :=
  [CRGB.mk 255 0 0; CRGB.mk 0 255 0; CRGB.mk 0 0 255;
   CRGB.mk 255 255 0; CRGB.mk 255 0 255; CRGB.mk 0 255 255].

End FallingStarsMore.

(** ** More of the snake game: guards and display *)

Module SnakeMore.
Import Machine Snake.

(** The new head passes both guards: it is not the second segment and
    not a later one. *)
Definition clear_of_body (d : Z) (s : Game) : Prop :=
  (1 < snakeLength s -> snake s !!! 1%nat <> new_head d s) /\
  (forall k, (2 <= k < Z.to_nat (snakeLength s))%nat -> snake s !!! k <> new_head d s).

(** *** The display

    [pixels] is an [Adafruit_NeoPixel] strip of [RGB_COUNT] pixels; the
    class belongs to a library outside the repository and is modelled by
    its contract: [clear] blanks every pixel, [setPixelColor(n, c)]
    records the colour [c] for pixel [n] and ignores an [n] past the end
    of the strip, [Color(r, g, b)] packs three channels into one word.
    The frame is the list of the colours requested, pixel by pixel. *)

Definition Color (r g b : Z) : Z :=
  Z.lor (Z.shiftl r 16) (Z.lor (Z.shiftl g 8) b).

Definition headColor : Z * Z * Z := (0, 50, 0).
Definition bodyColor : Z * Z * Z := (0, 25, 0).
Definition foodColor : Z * Z * Z := (40, 0, 0).

Definition Color3 (c : Z * Z * Z) : Z :=
  let '(r, g, b) := c in Color r g b.

Definition setPixelColor (n c : Z) (px : list Z) : list Z :=
  if n <? RGB_COUNT then <[Z.to_nat n := c]> px else px.

Definition clear (px : list Z) : list Z := replicate (length px) 0.

(** [uint8_t pixelIndex = p.x * Matrix_Col + p.y] *)
Definition pixel_index (p : Point.t) : Z :=
  to_u8 (Point.x p * Matrix_Col + Point.y p).

(** [for (uint8_t i = 1; i < snakeLength; i++)] of [UpdateDisplay]:
    [count] segments from index [i] on. *)
Fixpoint draw_body (i count : nat) (a : list Point.t) (px : list Z) : list Z :=
  match count with
  | O => px
  | S c =>
      draw_body (S i) c a
        (setPixelColor (pixel_index (a !!! i)) (Color3 bodyColor) px)
  end.

(** [UpdateDisplay]: the frame handed to [pixels.show()]. *)
Definition UpdateDisplay (s : Game) (px : list Z) : list Z :=
  let px1 := clear px in
  let px2 := draw_body 1 (Z.to_nat (snakeLength s - 1)) (snake s) px1 in
  let px3 := setPixelColor (pixel_index (snake s !!! 0%nat)) (Color3 headColor) px2 in
  setPixelColor (pixel_index (food s)) (Color3 foodColor) px3.

End SnakeMore.

(** * Properties *)

(** ** Machine integers and the generator *)

Module MachineFacts.
Import Machine.

Lemma to_u8_small z : 0 <= z < 256 -> to_u8 z = z.
Proof. intros; unfold to_u8; apply Z.mod_small; lia. Qed.

Lemma to_i8_small z : -128 <= z < 128 -> to_i8 z = z.
Proof. intros; unfold to_i8; rewrite Z.mod_small; lia. Qed.

Lemma to_u16_small z : 0 <= z < 65536 -> to_u16 z = z.
Proof. intros; unfold to_u16; apply Z.mod_small; lia. Qed.

Lemma to_u8_range z : 0 <= to_u8 z < 256.
Proof. unfold to_u8; apply Z.mod_pos_bound; lia. Qed.

Lemma random_range lo hi g : lo < hi -> lo <= fst (Rng.random lo hi g) < hi.
Proof.
  intros Hlt; unfold Rng.random.
  destruct (hi <=? lo) eqn:E; [lia|]; simpl.
  pose proof (Z.mod_pos_bound (Rng.draws g (Rng.pos g)) (hi - lo)); lia.
Qed.

End MachineFacts.

(** ** The snake game *)

Module SnakeFacts.
Import Machine MachineFacts Snake.

Lemma point_eqb_eq p q : Point.eqb p q = true <-> p = q.
Proof.
  destruct p as [a b], q as [c d]; unfold Point.eqb; simpl.
  rewrite andb_true_iff, !Z.eqb_eq. split.
  - intros [-> ->]; reflexivity.
  - intros [= -> ->]; auto.
Qed.

Lemma point_eqb_neq p q : Point.eqb p q = false <-> p <> q.
Proof. rewrite <- point_eqb_eq. destruct (Point.eqb p q); split; congruence. Qed.

(** *** The scan loop *)

Lemma hits_false i c a p :
  hits i c a p = false <-> forall k, (i <= k < i + c)%nat -> a !!! k <> p.
Proof.
  revert i; induction c as [|c IH]; intros i; simpl.
  - split; [intros _ k Hk; lia | reflexivity].
  - destruct (Point.eqb (a !!! i) p) eqn:E.
    + apply point_eqb_eq in E. split; [discriminate|].
      intros Hall. exfalso. apply (Hall i); [lia | exact E].
    + apply point_eqb_neq in E. rewrite IH. split.
      * intros Hall k Hk. destruct (decide (k = i)) as [->|Hne]; [exact E|].
        apply Hall; lia.
      * intros Hall k Hk. apply Hall; lia.
Qed.

Lemma hits_true i c a p :
  hits i c a p = true <-> exists k, (i <= k < i + c)%nat /\ a !!! k = p.
Proof.
  revert i; induction c as [|c IH]; intros i; simpl.
  - split; [discriminate | intros (k & Hk & _); lia].
  - destruct (Point.eqb (a !!! i) p) eqn:E.
    + apply point_eqb_eq in E. split; [|reflexivity].
      intros _. exists i. split; [lia | exact E].
    + apply point_eqb_neq in E. rewrite IH. split.
      * intros (k & Hk & Hp). exists k. split; [lia | exact Hp].
      * intros (k & Hk & Hp). exists k. split; [|exact Hp].
        destruct (decide (k = i)) as [->|Hne]; [contradiction | lia].
Qed.

Lemma lookup_total_take (a : list Point.t) (n k : nat) :
  (k < n)%nat -> take n a !!! k = a !!! k.
Proof.
  intros Hk. rewrite !list_lookup_total_alt, lookup_take_lt by lia. reflexivity.
Qed.

(** Scanning the first [n] slots is membership in the first [n] slots. *)
Lemma hits_body n a p :
  (n <= length a)%nat -> hits 0 n a p = false <-> p ∉ take n a.
Proof.
  intros Hn. rewrite hits_false. split.
  - intros Hall Hin. apply list_elem_of_lookup in Hin as [k Hk].
    pose proof (lookup_lt_Some _ _ _ Hk) as Hlt. rewrite length_take in Hlt.
    apply (Hall k); [lia|].
    rewrite <- (lookup_total_take a n k) by lia.
    apply list_lookup_total_correct. exact Hk.
  - intros Hnot k Hk Heq. apply Hnot. apply list_elem_of_lookup. exists k.
    rewrite lookup_take_lt by lia. rewrite <- Heq.
    apply list_lookup_lookup_total_lt. lia.
Qed.

(** *** The shifting loop *)

Lemma shift_body_length i a : length (shift_body i a) = length a.
Proof.
  revert a; induction i as [|j IH]; intros a; simpl; [reflexivity|].
  rewrite IH, length_insert. reflexivity.
Qed.

Lemma shift_body_spec i a :
  (i < length a)%nat ->
  shift_body i a = take 1 a ++ take i a ++ drop (S i) a.
Proof.
  revert a; induction i as [|j IH]; intros a Hlt; simpl shift_body.
  - simpl (take 0 a). simpl app at 2. rewrite take_drop. reflexivity.
  - rewrite IH by (rewrite length_insert; lia).
    assert (Hj : a !! j = Some (a !!! j))
      by (apply list_lookup_lookup_total_lt; lia).
    rewrite !take_insert_ge by lia.
    rewrite (take_S_r a j (a !!! j) Hj).
    rewrite <- app_assoc. simpl app at 3.
    f_equal. f_equal.
    rewrite drop_insert_ge by lia.
    replace (S j - S j)%nat with 0%nat by lia.
    destruct (drop (S j) a) as [|q rest] eqn:Hd.
    + apply (f_equal length) in Hd. rewrite length_drop in Hd. simpl in Hd. lia.
    + simpl. f_equal.
      change rest with (drop 1 (q :: rest)). rewrite <- Hd, drop_drop.
      f_equal. lia.
Qed.

(** After the loop and [snake[0] = newHead]: the new head, the first [i]
    old segments, and the untouched rest of the array. *)
Lemma place_head_spec i a h :
  (i < length a)%nat ->
  <[0%nat := h]> (shift_body i a) = h :: take i a ++ drop (S i) a.
Proof.
  intros Hlt. rewrite shift_body_spec by exact Hlt.
  destruct a as [|p a']; [simpl in Hlt; lia|]. reflexivity.
Qed.

End SnakeFacts.

Module FoodFacts.
Import Machine MachineFacts Snake SnakeFacts.

(** *** [GenerateFood] *)

Lemma random_step hi g :
  0 < hi ->
  Rng.random 0 hi g =
    (Rng.draws g (Rng.pos g) mod hi, Rng.mk (Rng.draws g) (S (Rng.pos g))).
Proof.
  intros Hhi. unfold Rng.random.
  destruct (hi <=? 0) eqn:E; [lia|].
  rewrite Z.sub_0_r, Z.add_0_l. reflexivity.
Qed.

(** One round draws two raw values and stores the sampled cell. *)
Lemma GenerateFood_round k g s :
  GenerateFood (S k) g s =
    let g2 := Rng.mk (Rng.draws g) (S (S (Rng.pos g))) in
    let s1 := set_food (sample g 0) s in
    if food_on_snake s1 then GenerateFood k g2 s1 else Some (s1, g2).
Proof.
  cbn [GenerateFood].
  rewrite (random_step Matrix_Row g) by reflexivity.
  rewrite (random_step Matrix_Col) by reflexivity.
  simpl Rng.draws; simpl Rng.pos.
  unfold sample.
  replace (Rng.pos g + 2 * 0)%nat with (Rng.pos g) by lia.
  replace (Rng.pos g + 1)%nat with (S (Rng.pos g)) by lia.
  rewrite !to_i8_small; [reflexivity | |].
  - pose proof (Z.mod_pos_bound (Rng.draws g (S (Rng.pos g))) Matrix_Col).
    unfold Matrix_Col in *; lia.
  - pose proof (Z.mod_pos_bound (Rng.draws g (Rng.pos g)) Matrix_Row).
    unfold Matrix_Row in *; lia.
Qed.

Lemma sample_on_board g k : on_board (sample g k).
Proof.
  unfold on_board, sample; simpl. split; apply Z.mod_pos_bound; reflexivity.
Qed.

(** What [GenerateFood] leaves alone, and what it guarantees. *)
Lemma GenerateFood_frame fuel g s s' g' :
  GenerateFood fuel g s = Some (s', g') ->
  snake s' = snake s /\ snakeLength s' = snakeLength s /\
  gameOver s' = gameOver s /\ food_on_snake s' = false /\ on_board (food s').
Proof.
  revert g s; induction fuel as [|k IH]; intros g s Hrun; [discriminate|].
  rewrite GenerateFood_round in Hrun. cbv zeta in Hrun.
  destruct (food_on_snake (set_food (sample g 0) s)) eqn:E.
  - apply IH in Hrun. exact Hrun.
  - injection Hrun as <- <-. simpl. repeat split; try exact E.
    all: apply sample_on_board.
Qed.

Lemma sample_next g k :
  sample (Rng.mk (Rng.draws g) (S (S (Rng.pos g)))) k = sample g (S k).
Proof.
  unfold sample; cbn [Rng.draws Rng.pos].
  replace (S (S (Rng.pos g)) + 2 * k)%nat with (Rng.pos g + 2 * S k)%nat by lia.
  reflexivity.
Qed.

Lemma set_food_twice p q s : set_food p (set_food q s) = set_food p s.
Proof. reflexivity. Qed.

(** Enough fuel: if round [k] draws an accepted cell, [S k] rounds of
    fuel are enough. *)
Lemma GenerateFood_fuel k g s :
  food_on_snake (set_food (sample g k) s) = false ->
  is_Some (GenerateFood (S k) g s).
Proof.
  revert g s; induction k as [|k IH]; intros g s Hfree.
  - rewrite GenerateFood_round. cbv zeta. rewrite Hfree. eauto.
  - rewrite GenerateFood_round. cbv zeta.
    destruct (food_on_snake (set_food (sample g 0) s)); [|eauto].
    apply IH. rewrite sample_next, set_food_twice. exact Hfree.
Qed.

Lemma GenerateFood_serves g s :
  serves g s -> exists fuel, is_Some (GenerateFood fuel g s).
Proof. intros [k Hk]. exists (S k). apply GenerateFood_fuel. exact Hk. Qed.

(** More fuel never changes a result. *)
Lemma GenerateFood_more_fuel fuel extra g s out :
  GenerateFood fuel g s = Some out ->
  GenerateFood (fuel + extra) g s = Some out.
Proof.
  revert g s; induction fuel as [|k IH]; intros g s Hrun; [discriminate|].
  replace (S k + extra)%nat with (S (k + extra)) by lia.
  rewrite GenerateFood_round in *. cbv zeta in *.
  destruct (food_on_snake (set_food (sample g 0) s)); [|exact Hrun].
  apply IH. exact Hrun.
Qed.

(** *** A free cell exists while the snake can still grow *)

Lemma board_NoDup : NoDup board.
Proof. apply (bool_decide_unpack _). vm_compute. reflexivity. Qed.

Lemma board_length : length board = 64%nat.
Proof. reflexivity. Qed.

Lemma board_on_board p : p ∈ board -> on_board p.
Proof.
  revert p. apply Forall_forall.
  unfold on_board. apply (bool_decide_unpack _). vm_compute. reflexivity.
Qed.

(** Fewer than 64 cells cannot cover the board. *)
Lemma free_cell (l : list Point.t) :
  (length l < 64)%nat -> exists p, on_board p /\ p ∉ l.
Proof.
  intros Hlen.
  destruct (decide (Forall (fun p => p ∈ l) board)) as [Hall|Hnot].
  - exfalso.
    assert (Hsub : board ⊆+ l).
    { apply NoDup_submseteq; [exact board_NoDup|].
      intros p Hp. revert p Hp. apply Forall_forall. exact Hall. }
    apply submseteq_length in Hsub. rewrite board_length in Hsub. lia.
  - apply not_Forall_Exists in Hnot; [|intros p; apply _].
    apply Exists_exists in Hnot as (p & Hp & Hfree).
    exists p. split; [apply board_on_board; exact Hp | exact Hfree].
Qed.

Lemma sample_draws_cell p : on_board p -> sample (draws_cell p) 0 = p.
Proof.
  intros [Hx Hy]. destruct p as [a b]; simpl in *.
  unfold sample, draws_cell; simpl.
  unfold Matrix_Row, Matrix_Col in *.
  rewrite !Z.mod_small by lia. reflexivity.
Qed.

End FoodFacts.

Module MoveFacts.
Import Machine MachineFacts Snake SnakeFacts FoodFacts.

(** *** The new head *)

Lemma wrap_axis_range bound v : 0 < bound -> 0 <= wrap_axis bound v < bound.
Proof.
  intros Hb. unfold wrap_axis.
  destruct (v <? 0) eqn:E1.
  - destruct (bound - 1 >=? bound) eqn:E2; lia.
  - destruct (v >=? bound) eqn:E2; lia.
Qed.

Lemma new_head_on_board d s : on_board (new_head d s).
Proof.
  unfold on_board, new_head, wrap_head; simpl.
  split; apply wrap_axis_range; reflexivity.
Qed.

(** One step off either edge comes back on the opposite edge. *)
Lemma wrap_axis_mod bound v :
  0 < bound -> -1 <= v <= bound -> wrap_axis bound v = v mod bound.
Proof.
  intros Hb Hv. unfold wrap_axis.
  destruct (v <? 0) eqn:E1.
  - assert (v = -1) as -> by lia.
    destruct (bound - 1 >=? bound) eqn:E2; [lia|].
    apply (Z.mod_unique _ _ (-1)); lia.
  - destruct (v >=? bound) eqn:E2.
    + assert (v = bound) as -> by lia. rewrite Z.mod_same; lia.
    + rewrite Z.mod_small; lia.
Qed.

(** *** The growing step *)

Lemma grow_length s :
  wf s -> snakeLength s < MAX_SNAKE_LENGTH ->
  snakeLength (grow s) = snakeLength s + 1.
Proof.
  intros [_ Hlen] Hlt. unfold grow; simpl. unfold MAX_SNAKE_LENGTH in *.
  apply to_u8_small. lia.
Qed.

Lemma grow_snake s h :
  wf s -> snakeLength s < MAX_SNAKE_LENGTH ->
  <[0%nat := h]> (snake (grow s)) =
    h :: take (Z.to_nat (snakeLength s)) (snake s)
      ++ drop (S (Z.to_nat (snakeLength s))) (snake s).
Proof.
  intros [Harr Hlen] Hlt. unfold grow; simpl. unfold MAX_SNAKE_LENGTH in *.
  rewrite to_i8_small by lia.
  apply place_head_spec. rewrite Harr. lia.
Qed.

(** What [GenerateFood] scans after the growing step: the old head
    twice, then the rest of the old body. *)
Lemma grow_scan s :
  wf s -> snakeLength s < MAX_SNAKE_LENGTH ->
  take (Z.to_nat (snakeLength (grow s))) (snake (grow s)) =
    take 1 (snake s) ++ take (Z.to_nat (snakeLength s)) (snake s).
Proof.
  intros Hwf Hlt. rewrite grow_length by assumption.
  destruct Hwf as [Harr Hlen]. unfold grow; simpl. unfold MAX_SNAKE_LENGTH in *.
  rewrite to_i8_small by lia.
  rewrite shift_body_spec by (rewrite Harr; lia).
  rewrite app_assoc. apply take_app_length'.
  rewrite length_app, !length_take, Harr. lia.
Qed.

Lemma take_mono (a : list Point.t) (n m : nat) p :
  (n <= m)%nat -> p ∈ take n a -> p ∈ take m a.
Proof.
  intros Hnm Hin.
  replace (take n a) with (take n (take m a)) in Hin
    by (rewrite take_take; f_equal; lia).
  eapply subseteq_take. exact Hin.
Qed.

(** While the snake can grow, some generator is fair for it. *)
Lemma fair_exists s : wf s -> exists g, fair g s.
Proof.
  intros Hwf.
  destruct (decide (snakeLength s < MAX_SNAKE_LENGTH)) as [Hlt|Hge];
    [|exists rng0; intros Hlt; contradiction].
  set (n := Z.to_nat (snakeLength s)).
  destruct (free_cell (take (Nat.max n 1) (snake s))) as (p & Hp & Hfree).
  { rewrite length_take. unfold MAX_SNAKE_LENGTH in Hlt. subst n. lia. }
  exists (draws_cell p). intros _. exists 0%nat.
  rewrite sample_draws_cell by exact Hp.
  unfold food_on_snake. cbn [snake snakeLength food set_food].
  apply hits_body.
  - pose proof (grow_length s Hwf Hlt) as Hgl.
    destruct Hwf as [Harr Hlen]. unfold grow at 2; cbn [snake].
    rewrite shift_body_length, Harr, Hgl. unfold MAX_SNAKE_LENGTH in *. lia.
  - rewrite grow_scan by assumption. fold n.
    intros Hin. apply Hfree. apply elem_of_app in Hin as [Hin|Hin].
    + apply (take_mono _ 1); [lia | exact Hin].
    + apply (take_mono _ n); [lia | exact Hin].
Qed.

End MoveFacts.

Module MoveCases.
Import Machine MachineFacts Snake SnakeFacts FoodFacts MoveFacts.

(** Every result of [MoveSnake] is one of the six cases. *)
Lemma MoveSnake_cases fuel g d s r s' g' :
  MoveSnake fuel g d s = Some (r, s', g') -> move_case d s r s'.
Proof.
  unfold MoveSnake. intros Hrun.
  destruct (gameOver s) eqn:Hover.
  { injection Hrun as <- <- <-. apply case_latched. exact Hover. }
  destruct ((1 <? snakeLength s) && Point.eqb (snake s !!! 1%nat) (new_head d s))
    eqn:Hrev.
  { injection Hrun as <- <- <-.
    apply andb_true_iff in Hrev as [Hlen Heq].
    apply case_reversal; [exact Hover | lia | apply point_eqb_eq; exact Heq]. }
  destruct (hits 2 (Z.to_nat (snakeLength s - 2)) (snake s) (new_head d s))
    eqn:Hhit.
  { injection Hrun as <- <- <-. apply case_collision; assumption. }
  destruct (Point.eqb (new_head d s) (food s)) eqn:Hfood; cbn [negb] in Hrun.
  - apply point_eqb_eq in Hfood.
    destruct (snakeLength s <? MAX_SNAKE_LENGTH) eqn:Hcap.
    + destruct (GenerateFood fuel g (grow s)) as [[s2 g2]|] eqn:Hgen;
        [|discriminate].
      injection Hrun as <- <- <-.
      apply GenerateFood_frame in Hgen as Hfr.
      destruct Hfr as (Hsn & Hln & Hgo & Hfree & Hon).
      assert (Hs2 : s2 = set_food (food s2) (grow s)).
      { destruct s2 as [a n f b]; unfold set_food; simpl in *.
        rewrite Hsn, Hln, Hgo. reflexivity. }
      replace (set_snake (<[0%nat := new_head d s]> (snake s2)) s2)
        with (mkGame (<[0%nat := new_head d s]> (snake (grow s)))
                     (snakeLength (grow s)) (food s2) false).
      * apply case_grow; try assumption; [lia|].
        rewrite <- Hs2. exact Hfree.
      * unfold set_snake. rewrite Hsn, Hln, Hgo.
        unfold grow; cbn [gameOver]. rewrite Hover. reflexivity.
    + injection Hrun as <- <- <-. apply case_full; [assumption..|lia].
  - apply point_eqb_neq in Hfood.
    injection Hrun as <- <- <-. apply case_move; assumption.
Qed.

(** [MoveSnake] returns under every fair generator, given enough fuel. *)
Lemma MoveSnake_returns g d s :
  fair g s -> exists fuel, is_Some (MoveSnake fuel g d s).
Proof.
  intros Hfair. unfold MoveSnake.
  destruct (gameOver s); [exists 0%nat; eauto|].
  destruct ((1 <? snakeLength s) && Point.eqb (snake s !!! 1%nat) (new_head d s));
    [exists 0%nat; eauto|].
  destruct (hits 2 (Z.to_nat (snakeLength s - 2)) (snake s) (new_head d s));
    [exists 0%nat; eauto|].
  destruct (negb (Point.eqb (new_head d s) (food s))); [exists 0%nat; eauto|].
  destruct (snakeLength s <? MAX_SNAKE_LENGTH) eqn:Hcap; [|exists 0%nat; eauto].
  destruct (GenerateFood_serves g (grow s)) as [fuel [[s2 g2] Hgen]];
    [apply Hfair; lia|].
  exists fuel. rewrite Hgen. eauto.
Qed.

(** The body after each case: unchanged, or the new head followed by
    segments of the old body. *)
Lemma move_case_body d s r s' :
  wf s -> move_case d s r s' ->
  body s' = body s \/ body s' = [] \/
  exists l, body s' = new_head d s :: l /\ l ⊆ body s.
Proof.
  intros Hwf Hcase. pose proof Hwf as [Harr Hlen].
  unfold MAX_SNAKE_LENGTH in Harr, Hlen.
  destruct Hcase as [Hover|Hover Hl Hrev|Hover Hhit|Hover Hfood
                    |f Hover Hfood Hcap Hon Hfree|Hover Hfood Hcap].
  - left; reflexivity.
  - left; reflexivity.
  - left; reflexivity.
  - destruct (decide (snakeLength s = 0)) as [Hz|Hnz].
    + right; left. unfold body; cbn [set_snake snakeLength]. rewrite Hz.
      reflexivity.
    + right; right. exists (take (Z.to_nat (snakeLength s - 1)) (snake s)). split.
      * unfold body; cbn [set_snake snakeLength snake].
        rewrite to_i8_small by lia.
        rewrite place_head_spec by (rewrite Harr; lia).
        replace (Z.to_nat (snakeLength s)) with (S (Z.to_nat (snakeLength s - 1)))
          by lia.
        cbn [take]. f_equal. apply take_app_length'.
        rewrite length_take, Harr. lia.
      * intros p Hp. unfold body. revert Hp. apply take_mono. lia.
  - right; right. exists (body s). split; [|reflexivity].
    unfold body; cbn [snakeLength snake].
    rewrite grow_length, grow_snake by assumption.
    replace (Z.to_nat (snakeLength s + 1)) with (S (Z.to_nat (snakeLength s)))
      by (unfold MAX_SNAKE_LENGTH in Hcap; lia).
    cbn [take]. f_equal. apply take_app_length'.
    rewrite length_take, Harr. unfold MAX_SNAKE_LENGTH in Hcap. lia.
  - assert (Heq : snakeLength s = 64) by (unfold MAX_SNAKE_LENGTH in Hcap; lia).
    right; right. unfold body; cbn [set_snake snakeLength snake]. rewrite Heq.
    destruct (snake s) as [|p a]; [simpl in Harr; lia|].
    exists (take 63 a). split; [reflexivity|].
    intros q Hq. change (Z.to_nat 64) with 64%nat. cbn [take].
    apply elem_of_cons. right. exact Hq.
Qed.


End MoveCases.

Module SnakeTheorems.
Import Machine MachineFacts Snake SnakeFacts FoodFacts MoveFacts MoveCases.

Lemma wf_start : wf start.
Proof. split; [reflexivity | unfold MAX_SNAKE_LENGTH; simpl; lia]. Qed.

Lemma Snake_Init_start :
  Snake_Init 1 rng0 power_up = Some (start, Rng.mk (Rng.draws rng0) 2).
Proof. reflexivity. Qed.

(** C9. The game-over flag is a latch: with [gameOver] set, [MoveSnake]
    returns 0 at once and leaves the game and the generator as they
    were, for every direction and for every further sequence of calls;
    only [Snake_Init] clears the flag, and it can always be run. *)
Theorem MoveSnake_game_over_latch (s : Game) :
  wf s -> gameOver s = true ->
  (forall fuel g d, MoveSnake fuel g d s = Some (0, s, g)) /\
  (forall fuel g ds,
      MoveSnake_seq fuel g ds s = Some (map (fun _ => 0) ds, s, g)) /\
  (forall fuel g s' g',
      Snake_Init fuel g s = Some (s', g') ->
      gameOver s' = false /\ snakeLength s' = 3) /\
  is_Some (Snake_Init 1 rng0 s).
Proof.
  intros Hwf Hover.
  assert (Hone : forall fuel g d, MoveSnake fuel g d s = Some (0, s, g)).
  { intros fuel g d. unfold MoveSnake. rewrite Hover. reflexivity. }
  split; [exact Hone|]. split; [|split].
  - intros fuel g ds. induction ds as [|d ds IH]; [reflexivity|].
    cbn [MoveSnake_seq map]. rewrite Hone, IH. reflexivity.
  - intros fuel g s' g' Hinit. unfold Snake_Init in Hinit.
    destruct (GenerateFood fuel g _) as [[s1 g1]|] eqn:Hgen; [|discriminate].
    injection Hinit as <- <-.
    apply GenerateFood_frame in Hgen as (_ & Hlen & _).
    split; [reflexivity | exact Hlen].
  - destruct Hwf as [Harr _]. unfold MAX_SNAKE_LENGTH in Harr.
    destruct s as [a n f b]; cbn [snake] in Harr.
    destruct a as [|p0 [|p1 [|p2 a]]]; try (simpl in Harr; lia).
    unfold Snake_Init. cbn. eauto.
Qed.

Lemma MoveSnake_game_over_latch_witness :
  (forall fuel g d,
      MoveSnake fuel g d (set_gameOver true start)
      = Some (0, set_gameOver true start, g)) /\
  (forall fuel g ds,
      MoveSnake_seq fuel g ds (set_gameOver true start)
      = Some (map (fun _ => 0) ds, set_gameOver true start, g)) /\
  (forall fuel g s' g',
      Snake_Init fuel g (set_gameOver true start) = Some (s', g') ->
      gameOver s' = false /\ snakeLength s' = 3) /\
  is_Some (Snake_Init 1 rng0 (set_gameOver true start)).
Proof.
  apply (MoveSnake_game_over_latch (set_gameOver true start)).
  - split; [reflexivity | unfold MAX_SNAKE_LENGTH; simpl; lia].
  - reflexivity.
Defined.

(** C5. The reversal guard: while the game runs, if the snake has more
    than one segment and the new head (after the wrap) is the second
    segment, [MoveSnake] returns 1 and the whole game -- body, length,
    food, [gameOver] -- and the generator are as before. *)
Theorem MoveSnake_reversal_is_noop (fuel : nat) (g : Rng.t) (d : Z) (s : Game) :
  gameOver s = false ->
  1 < snakeLength s ->
  new_head d s = snake s !!! 1%nat ->
  MoveSnake fuel g d s = Some (1, s, g).
Proof.
  intros Hover Hlen Hrev. unfold MoveSnake. rewrite Hover.
  assert (Hguard : (1 <? snakeLength s)
                   && Point.eqb (snake s !!! 1%nat) (new_head d s) = true).
  { apply andb_true_iff. split; [lia|]. apply point_eqb_eq. congruence. }
  rewrite Hguard. reflexivity.
Qed.

Lemma MoveSnake_reversal_is_noop_witness :
  MoveSnake 0 rng0 0 start = Some (1, start, rng0).
Proof.
  apply MoveSnake_reversal_is_noop.
  - reflexivity.
  - simpl; lia.
  - reflexivity.
Defined.

(** C10. [MoveSnake] returns 0, 1 or 2; it returns 0 exactly when
    [gameOver] is set on return, and [gameOver] is clear whenever it
    returns 1 or 2. It does return, given enough fuel, under every
    fair generator. *)
Theorem MoveSnake_result_code (d : Z) (s : Game) :
  (wf s -> exists g, fair g s) /\
  (forall g, fair g s -> exists fuel, is_Some (MoveSnake fuel g d s)) /\
  (forall fuel g r s' g',
      MoveSnake fuel g d s = Some (r, s', g') ->
      (r = 0 \/ r = 1 \/ r = 2) /\
      (r = 0 <-> gameOver s' = true) /\
      (r = 1 \/ r = 2 -> gameOver s' = false)).
Proof.
  split; [apply fair_exists|].
  split; [intros g; apply MoveSnake_returns|].
  intros fuel g r s' g' Hrun. apply MoveSnake_cases in Hrun.
  destruct Hrun; cbn [gameOver set_gameOver set_snake];
    repeat split; intros; try congruence; try lia; auto.
Qed.

Lemma wf_start_fed : wf start_fed.
Proof. split; [reflexivity | unfold MAX_SNAKE_LENGTH; simpl; lia]. Qed.

Lemma fair_draws_cell_start_fed : fair (draws_cell (Point.mk 0 0)) start_fed.
Proof. intros _. exists 0%nat. reflexivity. Qed.

(** The growing move on [start_fed]: result 2 and four segments. *)
Example MoveSnake_start_fed :
  option_map (fun out => (fst (fst out), body (snd (fst out))))
             (MoveSnake 1 (draws_cell (Point.mk 0 0)) 1 start_fed)
  = Some (2, [Point.mk 4 5; Point.mk 4 4; Point.mk 3 4; Point.mk 2 4]).
Proof. reflexivity. Qed.

(** C8. The new head is wrapped on each axis (one step off an edge comes
    back on the opposite edge: the coordinate modulo the bound), so if
    every body segment lies in [0, Matrix_Row) x [0, Matrix_Col) before
    a move, every body segment does after it, whatever the direction
    code; and the call returns, given enough fuel, under every fair
    generator. *)
Theorem MoveSnake_stays_on_board (d : Z) (s : Game) :
  wf s -> Forall on_board (body s) ->
  (exists g, fair g s) /\
  (forall g, fair g s -> exists fuel, is_Some (MoveSnake fuel g d s)) /\
  (forall fuel g r s' g',
      MoveSnake fuel g d s = Some (r, s', g') -> Forall on_board (body s')) /\
  (on_board (snake s !!! 0%nat) ->
   let h := snake s !!! 0%nat in
   new_head 0 s = Point.mk ((Point.x h - 1) mod Matrix_Row) (Point.y h) /\
   new_head 1 s = Point.mk (Point.x h) ((Point.y h + 1) mod Matrix_Col) /\
   new_head 2 s = Point.mk ((Point.x h + 1) mod Matrix_Row) (Point.y h) /\
   new_head 3 s = Point.mk (Point.x h) ((Point.y h - 1) mod Matrix_Col)).
Proof.
  intros Hwf Hbody. split; [apply fair_exists; exact Hwf|].
  split; [intros g; apply MoveSnake_returns|]. split.
  - intros fuel g r s' g' Hrun. apply MoveSnake_cases in Hrun.
    destruct (move_case_body d s r s' Hwf Hrun) as [->| [->| (l & -> & Hl)]].
    + exact Hbody.
    + constructor.
    + constructor; [apply new_head_on_board|].
      apply Forall_forall. intros p Hp.
      apply (proj1 (Forall_forall _ _) Hbody). apply Hl. exact Hp.
  - intros [Hx Hy] h. subst h.
    unfold new_head, wrap_head. unfold Matrix_Row, Matrix_Col in *.
    change (to_u8 0) with 0; change (to_u8 1) with 1;
      change (to_u8 2) with 2; change (to_u8 3) with 3.
    cbn [step_head Point.x Point.y].
    rewrite !to_i8_small by lia.
    rewrite !(wrap_axis_mod 8) by lia.
    rewrite (Z.mod_small (Point.x (snake s !!! 0%nat)) 8) by lia.
    rewrite (Z.mod_small (Point.y (snake s !!! 0%nat)) 8) by lia.
    repeat split; reflexivity.
Qed.

Lemma MoveSnake_stays_on_board_witness :
  (exists g, fair g start_fed) /\
  (forall g, fair g start_fed -> exists fuel, is_Some (MoveSnake fuel g 1 start_fed)) /\
  (forall fuel g r s' g',
      MoveSnake fuel g 1 start_fed = Some (r, s', g') -> Forall on_board (body s')) /\
  (on_board (snake start_fed !!! 0%nat) ->
   let h := snake start_fed !!! 0%nat in
   new_head 0 start_fed = Point.mk ((Point.x h - 1) mod Matrix_Row) (Point.y h) /\
   new_head 1 start_fed = Point.mk (Point.x h) ((Point.y h + 1) mod Matrix_Col) /\
   new_head 2 start_fed = Point.mk ((Point.x h + 1) mod Matrix_Row) (Point.y h) /\
   new_head 3 start_fed = Point.mk (Point.x h) ((Point.y h - 1) mod Matrix_Col)).
Proof.
  apply (MoveSnake_stays_on_board 1 start_fed).
  - split; [reflexivity | unfold MAX_SNAKE_LENGTH; simpl; lia].
  - unfold body, on_board, Matrix_Row, Matrix_Col; simpl.
    repeat constructor; simpl; lia.
Defined.

(** A direction code above 3 falls through the [switch]. *)
Lemma step_head_invalid d h : 3 < d -> step_head d h = h.
Proof.
  intros Hd. destruct d as [|p|p]; try lia.
  destruct p as [[q|q|]|[q|q|]|]; try reflexivity; lia.
Qed.

Lemma wrap_head_on_board h : on_board h -> wrap_head h = h.
Proof.
  intros [Hx Hy]. destruct h as [a b]; simpl in *.
  unfold wrap_head, wrap_axis, Matrix_Row, Matrix_Col in *; simpl.
  destruct (a <? 0) eqn:E1; [lia|]. destruct (a >=? 8) eqn:E2; [lia|].
  destruct (b <? 0) eqn:E3; [lia|]. destruct (b >=? 8) eqn:E4; [lia|].
  reflexivity.
Qed.

(** With an invalid direction code the new head is the old head. *)
Lemma new_head_invalid d s :
  3 < d < 256 -> on_board (snake s !!! 0%nat) -> new_head d s = snake s !!! 0%nat.
Proof.
  intros Hd Hon. unfold new_head.
  rewrite to_u8_small by lia.
  rewrite step_head_invalid by lia. apply wrap_head_on_board. exact Hon.
Qed.

(** C2, as the claim states it, fails: from the game [Snake_Init] sets
    up, the invalid direction code 4 yields the result 1 but moves the
    second and third segments. *)
Lemma MoveSnake_invalid_direction_shifts :
  ~ valid_direction 4 /\ gameOver start = false /\
  body start = [Point.mk 4 4; Point.mk 3 4; Point.mk 2 4] /\
  exists s', MoveSnake 1 rng0 4 start = Some (1, s', rng0) /\
             body s' = [Point.mk 4 4; Point.mk 4 4; Point.mk 3 4] /\
             s' <> start.
Proof.
  split; [unfold valid_direction; lia|].
  split; [reflexivity|]. split; [reflexivity|].
  eexists. split; [reflexivity|]. split; [reflexivity|]. discriminate.
Qed.




(** Crossing the top edge and the right edge from the corner (0, 7). *)
Example new_head_wraps :
  let s := set_snake (<[0%nat := Point.mk 0 7]> (snake start)) start in
  new_head 0 s = Point.mk 7 7 /\ new_head 1 s = Point.mk 0 0.
Proof. split; reflexivity. Qed.

End SnakeTheorems.

(** ** The XY mapper *)

Module MatrixUtilFacts.
Import Machine MachineFacts MatrixUtil.

Section Stages.
Variable cfg : PanelConfig.
Hypothesis Hok : panel_ok cfg.

Local Abbreviation W := (MATRIX_WIDTH cfg).
Local Abbreviation H := (MATRIX_HEIGHT cfg).

(** In-range arguments pass the casts and the clamps untouched. *)
Lemma clamp_in_panel x y :
  in_panel cfg (x, y) -> clamp cfg (to_u8 x, to_u8 y) = (x, y).
Proof.
  destruct Hok as (HW & HH & _). intros [Hx Hy]; simpl in Hx, Hy.
  rewrite !to_u8_small by lia. unfold clamp.
  destruct (x >=? W) eqn:E1; [lia|]. destruct (y >=? H) eqn:E2; [lia|].
  reflexivity.
Qed.

(** *** Rotation *)

Lemma rotate_in_panel p : in_panel cfg p -> in_panel cfg (rotate cfg p).
Proof.
  destruct Hok as (HW & HH & Hrot & Hsq). destruct p as [x y].
  intros [Hx Hy]; simpl in Hx, Hy. unfold rotate, in_panel.
  destruct (PANEL_ROTATION cfg =? 90) eqn:E90;
    [|destruct (PANEL_ROTATION cfg =? 180) eqn:E180;
      [|destruct (PANEL_ROTATION cfg =? 270) eqn:E270]];
    try (assert (HWH : W = H) by (apply Hsq; lia));
    cbn [fst snd]; rewrite ?to_u8_small by lia; lia.
Qed.

Lemma rotate_inj p q :
  in_panel cfg p -> in_panel cfg q -> rotate cfg p = rotate cfg q -> p = q.
Proof.
  destruct Hok as (HW & HH & Hrot & Hsq). destruct p as [x y], q as [x' y'].
  intros [Hx Hy] [Hx' Hy']; simpl in Hx, Hy, Hx', Hy'. unfold rotate.
  destruct (PANEL_ROTATION cfg =? 90) eqn:E90;
    [|destruct (PANEL_ROTATION cfg =? 180) eqn:E180;
      [|destruct (PANEL_ROTATION cfg =? 270) eqn:E270]];
    try (assert (HWH : W = H) by (apply Hsq; lia));
    rewrite ?to_u8_small by lia; intros [= E1 E2]; f_equal; lia.
Qed.

Lemma rotate_surj q :
  in_panel cfg q -> exists p, in_panel cfg p /\ rotate cfg p = q.
Proof.
  destruct Hok as (HW & HH & Hrot & Hsq). destruct q as [x y].
  intros [Hx Hy]; simpl in Hx, Hy. unfold rotate, in_panel.
  destruct (PANEL_ROTATION cfg =? 90) eqn:E90;
    [|destruct (PANEL_ROTATION cfg =? 180) eqn:E180;
      [|destruct (PANEL_ROTATION cfg =? 270) eqn:E270]];
    try (assert (HWH : W = H) by (apply Hsq; lia)).
  - exists (y, W - 1 - x). cbn [fst snd].
    rewrite !to_u8_small by lia. split; [lia | f_equal; lia].
  - exists (W - 1 - x, H - 1 - y). cbn [fst snd].
    rewrite !to_u8_small by lia. split; [lia | f_equal; lia].
  - exists (H - 1 - y, x). cbn [fst snd].
    rewrite !to_u8_small by lia. split; [lia | f_equal; lia].
  - exists (x, y). cbn [fst snd]. split; [lia | reflexivity].
Qed.

(** *** Flips *)

Lemma flip_in_panel p : in_panel cfg p -> in_panel cfg (flip cfg p).
Proof.
  destruct Hok as (HW & HH & _). destruct p as [x y].
  intros [Hx Hy]; simpl in Hx, Hy. unfold flip, in_panel.
  destruct (PANEL_FLIP_X cfg), (PANEL_FLIP_Y cfg);
    cbn [fst snd]; rewrite ?to_u8_small by lia; lia.
Qed.

Lemma flip_inj p q :
  in_panel cfg p -> in_panel cfg q -> flip cfg p = flip cfg q -> p = q.
Proof.
  destruct Hok as (HW & HH & _). destruct p as [x y], q as [x' y'].
  intros [Hx Hy] [Hx' Hy']; simpl in Hx, Hy, Hx', Hy'. unfold flip.
  destruct (PANEL_FLIP_X cfg), (PANEL_FLIP_Y cfg);
    rewrite ?to_u8_small by lia; intros [= E1 E2]; f_equal; lia.
Qed.

Lemma flip_surj q :
  in_panel cfg q -> exists p, in_panel cfg p /\ flip cfg p = q.
Proof.
  destruct Hok as (HW & HH & _). destruct q as [x y].
  intros [Hx Hy]; simpl in Hx, Hy.
  exists (if PANEL_FLIP_X cfg then W - 1 - x else x,
          if PANEL_FLIP_Y cfg then H - 1 - y else y).
  unfold flip, in_panel.
  destruct (PANEL_FLIP_X cfg), (PANEL_FLIP_Y cfg);
    cbn [fst snd]; rewrite ?to_u8_small by lia;
    (split; [lia | f_equal; lia]).
Qed.

(** *** Wiring *)

(** [y & 0x01] is the parity of the row. *)
Lemma land_1_parity y : 0 <= y -> Z.land y 1 = y mod 2.
Proof. intros Hy. change 1 with (Z.ones 1). rewrite Z.land_ones by lia. reflexivity. Qed.

(** The index the wiring block computes, without the casts. *)
Lemma wire_value x y :
  in_panel cfg (x, y) ->
  wire cfg (x, y) =
    y * W + (if PANEL_WIRING_SERPENTINE cfg && negb (y mod 2 =? 0)
             then W - 1 - x else x).
Proof.
  destruct Hok as (HW & HH & _). intros [Hx Hy]; simpl in Hx, Hy.
  unfold wire. rewrite land_1_parity by lia.
  assert (Hrow : 0 <= y * W /\ y * W + W <= W * H) by nia.
  assert (HWH : W * H <= 65536) by nia.
  destruct (PANEL_WIRING_SERPENTINE cfg); cbn [andb];
    [destruct (negb (y mod 2 =? 0))|]; apply to_u16_small; lia.
Qed.

Lemma wire_range p : in_panel cfg p -> 0 <= wire cfg p < W * H.
Proof.
  destruct p as [x y]. intros Hp. rewrite wire_value by exact Hp.
  destruct Hok as (HW & HH & _). destruct Hp as [Hx Hy]; simpl in Hx, Hy.
  assert (Hrow : 0 <= y * W /\ y * W + W <= W * H) by nia.
  destruct (PANEL_WIRING_SERPENTINE cfg && negb (y mod 2 =? 0)); lia.
Qed.

Lemma wire_inj p q :
  in_panel cfg p -> in_panel cfg q -> wire cfg p = wire cfg q -> p = q.
Proof.
  destruct p as [x y], q as [x' y']. intros Hp Hq.
  rewrite !wire_value by assumption.
  destruct Hok as (HW & HH & _).
  destruct Hp as [Hx Hy], Hq as [Hx' Hy']; simpl in Hx, Hy, Hx', Hy'.
  intros Heq.
  assert (Hy_eq : y = y').
  { destruct (PANEL_WIRING_SERPENTINE cfg && negb (y mod 2 =? 0)),
             (PANEL_WIRING_SERPENTINE cfg && negb (y' mod 2 =? 0)); nia. }
  subst y'.
  destruct (PANEL_WIRING_SERPENTINE cfg && negb (y mod 2 =? 0));
    f_equal; lia.
Qed.

Lemma wire_surj i :
  0 <= i < W * H -> exists p, in_panel cfg p /\ wire cfg p = i.
Proof.
  destruct Hok as (HW & HH & _). intros Hi.
  pose proof (Z.div_mod i W ltac:(lia)) as Hdm.
  pose proof (Z.mod_pos_bound i W ltac:(lia)) as Hm.
  assert (Hq : 0 <= i / W < H).
  { split; [apply Z.div_pos; lia | apply Z.div_lt_upper_bound; lia]. }
  exists (if PANEL_WIRING_SERPENTINE cfg && negb ((i / W) mod 2 =? 0)
          then W - 1 - i mod W else i mod W, i / W).
  assert (Hin : in_panel cfg
                  (if PANEL_WIRING_SERPENTINE cfg && negb ((i / W) mod 2 =? 0)
                   then W - 1 - i mod W else i mod W, i / W)).
  { unfold in_panel; cbn [fst snd].
    destruct (PANEL_WIRING_SERPENTINE cfg && negb ((i / W) mod 2 =? 0)); lia. }
  split; [exact Hin|].
  rewrite wire_value by exact Hin.
  destruct (PANEL_WIRING_SERPENTINE cfg && negb ((i / W) mod 2 =? 0)); lia.
Qed.

(** *** The whole mapper on in-range arguments *)

Lemma MU_XY_stages x y :
  in_panel cfg (x, y) -> MU_XY cfg x y = wire cfg (flip cfg (rotate cfg (x, y))).
Proof. intros Hp. unfold MU_XY. rewrite clamp_in_panel by exact Hp. reflexivity. Qed.

End Stages.
End MatrixUtilFacts.

Module MatrixUtilTheorems.
Import Machine MachineFacts MatrixUtil MatrixUtilFacts.

(** C7. For every panel configuration -- any of the four rotations, any
    flips, serpentine or progressive wiring; the sides fitting the
    [uint8_t] arguments and a quarter turn applied to a square panel, as
    on the 8 by 8 board -- [MU_XY] restricted to the cells of the panel
    is a bijection onto [0, W * H): it lands in the range, it is
    injective, and every index is hit. Without rotation, flips and
    serpentine wiring it is [y * W + x]. *)
Theorem MU_XY_bijection (cfg : PanelConfig) :
  panel_ok cfg ->
  (forall x y, in_panel cfg (x, y) ->
     0 <= MU_XY cfg x y < MATRIX_WIDTH cfg * MATRIX_HEIGHT cfg) /\
  (forall x y x' y', in_panel cfg (x, y) -> in_panel cfg (x', y') ->
     MU_XY cfg x y = MU_XY cfg x' y' -> x = x' /\ y = y') /\
  (forall i, 0 <= i < MATRIX_WIDTH cfg * MATRIX_HEIGHT cfg ->
     exists x y, in_panel cfg (x, y) /\ MU_XY cfg x y = i) /\
  (PANEL_ROTATION cfg = 0 -> PANEL_FLIP_X cfg = false ->
   PANEL_FLIP_Y cfg = false -> PANEL_WIRING_SERPENTINE cfg = false ->
   forall x y, in_panel cfg (x, y) -> MU_XY cfg x y = y * MATRIX_WIDTH cfg + x).
Proof.
  intros Hok. split; [|split; [|split]].
  - intros x y Hp. rewrite MU_XY_stages by assumption.
    apply wire_range; [exact Hok|].
    apply flip_in_panel; [exact Hok|]. apply rotate_in_panel; assumption.
  - intros x y x' y' Hp Hq. rewrite !MU_XY_stages by assumption. intros Heq.
    apply wire_inj in Heq;
      [|exact Hok|apply flip_in_panel, rotate_in_panel; assumption..].
    apply flip_inj in Heq; [|exact Hok|apply rotate_in_panel; assumption..].
    apply rotate_inj in Heq; [|assumption..].
    injection Heq as -> ->. split; reflexivity.
  - intros i Hi.
    destruct (wire_surj cfg Hok i Hi) as (p2 & Hp2 & Hw).
    destruct (flip_surj cfg Hok p2 Hp2) as (p1 & Hp1 & Hf).
    destruct (rotate_surj cfg Hok p1 Hp1) as ([x y] & Hp & Hr).
    exists x, y. split; [exact Hp|].
    rewrite MU_XY_stages by assumption. rewrite Hr, Hf. exact Hw.
  - intros Hrot Hfx Hfy Hserp x y Hp.
    rewrite MU_XY_stages by assumption.
    unfold rotate, flip. rewrite Hrot, Hfx, Hfy. cbn [Z.eqb].
    rewrite wire_value by assumption. rewrite Hserp. reflexivity.
Qed.

Lemma MU_XY_bijection_witness :
  let cfg := mkPanel 8 8 true 90 true false in
  (forall x y, in_panel cfg (x, y) ->
     0 <= MU_XY cfg x y < MATRIX_WIDTH cfg * MATRIX_HEIGHT cfg) /\
  (forall x y x' y', in_panel cfg (x, y) -> in_panel cfg (x', y') ->
     MU_XY cfg x y = MU_XY cfg x' y' -> x = x' /\ y = y') /\
  (forall i, 0 <= i < MATRIX_WIDTH cfg * MATRIX_HEIGHT cfg ->
     exists x y, in_panel cfg (x, y) /\ MU_XY cfg x y = i) /\
  (PANEL_ROTATION cfg = 0 -> PANEL_FLIP_X cfg = false ->
   PANEL_FLIP_Y cfg = false -> PANEL_WIRING_SERPENTINE cfg = false ->
   forall x y, in_panel cfg (x, y) -> MU_XY cfg x y = y * MATRIX_WIDTH cfg + x).
Proof.
  apply (MU_XY_bijection (mkPanel 8 8 true 90 true false)).
  unfold panel_ok; simpl. repeat split; lia.
Defined.

(** The hand-computed values of the mapper on the 8 by 8 panel: the half
    turn sends (0, 0) to the index of (7, 7); serpentine wiring sends
    (0, 1) to 15; the default panel is row-major. *)
Example MU_XY_values :
  MU_XY (mkPanel 8 8 false 180 false false) 0 0 = 63 /\
  MU_XY (mkPanel 8 8 true 0 false false) 0 1 = 15 /\
  MU_XY (default_panel 8 8) 3 7 = 59 /\
  MU_XY (default_panel 8 8) 200 200 = 63.
Proof. repeat split. Qed.

(** Why a quarter turn needs a square panel: on a 4 by 2 panel turned by
    90 degrees the cell (3, 1) is sent outside the 8 indices. *)
Example MU_XY_quarter_turn_oblong :
  in_panel (mkPanel 4 2 false 90 false false) (3, 1) /\
  MU_XY (mkPanel 4 2 false 90 false false) 3 1 = 14.
Proof. split; [unfold in_panel; simpl; lia | reflexivity]. Qed.

End MatrixUtilTheorems.

(** ** Falling stars *)

Module FallingStarsTheorems.
Import Machine MatrixUtil FallingStars.

Lemma grid_get_set (gr : list (list Z)) (x y v : Z) :
  (Z.to_nat x < length gr)%nat ->
  (Z.to_nat y < length (gr !!! Z.to_nat x))%nat ->
  grid_get (grid_set gr x y v) x y = v.
Proof.
  intros Hx Hy. unfold grid_get, grid_set.
  rewrite list_lookup_total_insert_eq by exact Hx.
  apply list_lookup_total_insert_eq. exact Hy.
Qed.

(** The settlement test looks at the cell below only: an active particle
    whose new row [iy] is above the bottom row and whose cell below is
    occupied takes the cell [(ix, iy)], whatever that cell held. *)
Lemma update_particle_takes_cell (cfg : PanelConfig) (i : nat) (st : Sim) :
  let p := particles st !!! i in
  let vy1 := Fp.to_float (Fp.add64 (Fp.to_double (Particle.vy p)) Fp.lit_0_3) in
  let ix := Fp.to_int (Particle.x p) in
  let iy := Fp.to_int (Fp.add32 (Particle.y p) vy1) in
  Particle.active p = true ->
  0 <= iy < MATRIX_HEIGHT cfg - 1 ->
  grid_get (grid st) ix (iy + 1) <> 0 ->
  (Z.to_nat ix < length (grid st))%nat ->
  (Z.to_nat iy < length (grid st !!! Z.to_nat ix))%nat ->
  grid_get (grid (update_particle cfg i st)) ix iy = to_u8 (Z.of_nat i + 1).
Proof.
  intros p vy1 ix iy Hact Hiy Hbelow Hx Hy.
  unfold update_particle. fold p. rewrite Hact. fold vy1 ix iy.
  destruct (iy >=? MATRIX_HEIGHT cfg - 1) eqn:E1; [lia|].
  assert (E2 : (0 <=? iy) && (iy <? MATRIX_HEIGHT cfg - 1) = true)
    by (apply andb_true_iff; lia).
  rewrite E2.
  assert (E3 : (grid_get (grid st) ix (iy + 1) =? 0) = false) by lia.
  rewrite E3. cbn [negb grid]. apply grid_get_set; assumption.
Qed.

(** A settled slot is free again: [spawnParticle] fills slot 0 whenever
    it is inactive, and leaves the grid as it is. *)
Lemma spawnParticle_reuses_slot (cfg : PanelConfig) (g : Rng.t) (st : Sim) :
  Particle.active (particles st !!! 0%nat) = false ->
  (0 < length (particles st))%nat ->
  Particle.active (particles (fst (spawnParticle cfg g st)) !!! 0%nat) = true /\
  grid (fst (spawnParticle cfg g st)) = grid st.
Proof.
  intros Hact Hlen. unfold spawnParticle, MAX_PARTICLES. cbn [spawn_from].
  rewrite Hact. cbn [negb].
  destruct (Rng.random 0 (MATRIX_WIDTH cfg) g) as [rx g1].
  destruct (Rng.random 0 6 g1) as [rc g2]. cbn [fst particles grid].
  rewrite list_lookup_total_insert_eq by exact Hlen. split; reflexivity.
Qed.

(** The trajectory of a particle spawned on the first call of [loop]:
    its integer row after each of the first seven calls. Rows 2, 5 and 7
    are never visited: rows are skipped once [vy] exceeds 1. *)
Example falling_rows :
  map (fun n => row_of (fst (run board8 n respawn_draws boot)) 0)
      [1; 2; 3; 4; 5; 6; 7]%nat
  = [0; 0; 1; 3; 4; 6; 8].
Proof. vm_compute. reflexivity. Qed.

(** C1. The settled-grid invariant does not survive a respawn. In the run
    [respawn_draws] the first particle (slot 0, red) settles in cell
    (3, 7) on the seventh call of [loop]: the cell holds 1, its owner is
    inactive and the cell is rendered red. On the eighth call
    [spawnParticle] takes slot 0 again, the first inactive slot: the cell
    still holds 1, but its owner is now an active particle falling in
    column 5 and the cell is rendered green. *)
Theorem respawn_breaks_settled_cell :
  let after n := fst (run board8 n respawn_draws boot) in
  (grid_get (grid (after 7%nat)) 3 7 = 1 /\
   Particle.active (owner (after 7%nat) 3 7) = false /\
   cell_color board8 (after 7%nat) 3 7 = CRGB.mk 255 0 0 /\
   owners_inactive board8 (after 7%nat) = true) /\
  (grid_get (grid (after 8%nat)) 3 7 = 1 /\
   Particle.active (owner (after 8%nat) 3 7) = true /\
   Fp.to_int (Particle.x (owner (after 8%nat) 3 7)) = 5 /\
   cell_color board8 (after 8%nat) 3 7 = CRGB.mk 0 255 0 /\
   owners_inactive board8 (after 8%nat) = false) /\
  (forall g, Particle.active
               (owner (fst (spawnParticle board8 g (after 7%nat))) 3 7) = true).
Proof.
  cbv zeta. split; [|split].
  - vm_compute. repeat split.
  - vm_compute. repeat split.
  - intros g.
    assert (Hst : exists ps gr fb,
               fst (run board8 7 respawn_draws boot) = mkSim ps gr fb
               /\ Particle.active (ps !!! 0%nat) = false
               /\ grid_get gr 3 7 = 1 /\ length ps = 12%nat).
    { eexists _, _, _. split; [vm_compute; reflexivity|].
      split; [reflexivity|]. split; reflexivity. }
    destruct Hst as (ps & gr & fb & -> & Hact & Hcell & Hlen).
    destruct (spawnParticle_reuses_slot board8 g (mkSim ps gr fb))
      as [Hslot Hgrid]; [exact Hact | cbn [particles]; lia |].
    unfold owner. rewrite Hgrid. cbn [grid]. rewrite Hcell. exact Hslot.
Qed.

(** C4. A settled cell can change owner. In the run [stack_draws] three
    particles fall in column 3. Slot 0 settles in (3, 7) and slot 1 on
    top of it in (3, 6), both on the seventh call of [loop]: cell (3, 6)
    holds 2. The third particle (slot 0 again) is in row 4 after the
    twelfth call and in row 6 after the thirteenth, skipping row 5;
    since the cell below it, (3, 7), is occupied, it settles in (3, 6),
    which now holds 1. *)
Theorem fast_particle_takes_settled_cell :
  let after n := fst (run board8 n stack_draws boot) in
  (grid_get (grid (after 7%nat)) 3 7 = 1 /\
   grid_get (grid (after 7%nat)) 3 6 = 2 /\
   Particle.active (particles (after 7%nat) !!! 1%nat) = false) /\
  (grid_get (grid (after 12%nat)) 3 6 = 2 /\
   Particle.active (particles (after 12%nat) !!! 0%nat) = true /\
   row_of (after 12%nat) 0 = 4) /\
  (row_of (after 13%nat) 0 = 6 /\
   Particle.active (particles (after 13%nat) !!! 0%nat) = false /\
   grid_get (grid (after 13%nat)) 3 6 = 1).
Proof. cbv zeta. vm_compute. repeat split. Qed.

End FallingStarsTheorems.

(** * Further properties *)

(** ** The snake game: food placement and the three kinds of move *)

Module SnakeMoreFacts.
Import Machine MachineFacts Snake SnakeMore SnakeFacts FoodFacts MoveFacts MoveCases.

(** The scan accepts a cell exactly when it is on none of the live
    segments. *)
Lemma food_on_snake_body p s :
  (Z.to_nat (snakeLength s) <= length (snake s))%nat ->
  food_on_snake (set_food p s) = false <-> p ∉ body s.
Proof. intros Hn. unfold food_on_snake, body. cbn [set_food snake snakeLength food].
  apply hits_body. exact Hn. Qed.

Lemma food_on_snake_body_true p s :
  (Z.to_nat (snakeLength s) <= length (snake s))%nat ->
  food_on_snake (set_food p s) = true <-> p ∈ body s.
Proof.
  intros Hn. pose proof (food_on_snake_body p s Hn) as Hiff.
  destruct (food_on_snake (set_food p s)).
  - split; [intros _ | reflexivity].
    destruct (decide (p ∈ body s)) as [Hin|Hout]; [exact Hin|].
    apply Hiff in Hout. discriminate.
  - split; [discriminate|]. intros Hin. exfalso.
    apply (proj1 Hiff); [reflexivity | exact Hin].
Qed.

(** [GenerateFood] stops at the first round whose cell the scan accepts,
    having drawn two raw values per round. *)
Lemma GenerateFood_first_accepted k : forall g s fuel,
  (forall j, (j < k)%nat -> food_on_snake (set_food (sample g j) s) = true) ->
  food_on_snake (set_food (sample g k) s) = false ->
  (k < fuel)%nat ->
  GenerateFood fuel g s =
    Some (set_food (sample g k) s, Rng.mk (Rng.draws g) (Rng.pos g + 2 * S k)).
Proof.
  induction k as [|k IH]; intros g s fuel Hbefore Hfree Hfuel.
  - destruct fuel as [|f]; [lia|]. rewrite GenerateFood_round. cbv zeta.
    rewrite Hfree. do 3 f_equal. lia.
  - destruct fuel as [|f]; [lia|]. rewrite GenerateFood_round. cbv zeta.
    rewrite (Hbefore 0%nat) by lia.
    rewrite (IH _ _ f).
    + rewrite sample_next, set_food_twice. cbn [Rng.draws Rng.pos].
      do 3 f_equal. lia.
    + intros j Hj. rewrite sample_next, set_food_twice. apply Hbefore. lia.
    + rewrite sample_next, set_food_twice. exact Hfree.
    + lia.
Qed.

(** A move along an axis never leaves the head where it was. *)
Lemma wrap_axis_moves v delta :
  delta = 1 \/ delta = -1 -> wrap_axis 8 (to_i8 (v + delta)) <> v.
Proof.
  intros Hd. pose proof (wrap_axis_range 8 (to_i8 (v + delta)) ltac:(lia)) as Hr.
  destruct (decide (0 <= v < 8)) as [Hin|Hout]; [|lia].
  rewrite to_i8_small by lia. unfold wrap_axis.
  destruct (v + delta <? 0) eqn:E1.
  - destruct (8 - 1 >=? 8) eqn:E2; lia.
  - destruct (v + delta >=? 8) eqn:E2; lia.
Qed.

Lemma new_head_moves d s : valid_direction d -> new_head d s <> snake s !!! 0%nat.
Proof.
  intros Hd. unfold valid_direction in Hd.
  unfold new_head. rewrite to_u8_small by lia.
  destruct (snake s !!! 0%nat) as [hx hy].
  assert (Hcases : d = 0 \/ d = 1 \/ d = 2 \/ d = 3) by lia.
  destruct Hcases as [-> | [-> | [-> | ->]]]; cbn [step_head Point.x Point.y];
    unfold wrap_head, Matrix_Row, Matrix_Col; cbn [Point.x Point.y];
    intros [= Hx Hy].
  - apply (wrap_axis_moves hx (-1)); [lia | exact Hx].
  - apply (wrap_axis_moves hy 1); [lia | exact Hy].
  - apply (wrap_axis_moves hx 1); [lia | exact Hx].
  - apply (wrap_axis_moves hy (-1)); [lia | exact Hy].
Qed.

(** Past the latch and both guards, [MoveSnake] is its food branch. *)
Lemma MoveSnake_past_guards fuel g d s :
  gameOver s = false -> clear_of_body d s ->
  MoveSnake fuel g d s =
    if negb (Point.eqb (new_head d s) (food s)) then
      Some (1, set_snake (<[0%nat := new_head d s]>
                            (shift_body (Z.to_nat (to_i8 (snakeLength s - 1)))
                                        (snake s))) s, g)
    else if snakeLength s <? MAX_SNAKE_LENGTH then
      match GenerateFood fuel g (grow s) with
      | None => None
      | Some (s2, g2) =>
          Some (2, set_snake (<[0%nat := new_head d s]> (snake s2)) s2, g2)
      end
    else Some (2, set_snake (<[0%nat := new_head d s]> (snake s)) s, g).
Proof.
  intros Hover [Hrev Hbody]. unfold MoveSnake. rewrite Hover.
  assert (Hguard : (1 <? snakeLength s)
                   && Point.eqb (snake s !!! 1%nat) (new_head d s) = false).
  { apply andb_false_iff.
    destruct (decide (1 < snakeLength s)) as [Hl|Hl]; [right | left; lia].
    apply point_eqb_neq. apply Hrev. exact Hl. }
  rewrite Hguard.
  assert (Hhit : hits 2 (Z.to_nat (snakeLength s - 2)) (snake s) (new_head d s)
                 = false).
  { apply hits_false. intros k Hk. apply Hbody. lia. }
  rewrite Hhit. reflexivity.
Qed.

(** Conversely, a result other than the latch, the reversal and the
    collision means the new head passed both guards. *)
Lemma MoveSnake_guards fuel g d s r s' g' :
  gameOver s = false ->
  MoveSnake fuel g d s = Some (r, s', g') ->
  (1 < snakeLength s /\ snake s !!! 1%nat = new_head d s
   /\ r = 1 /\ s' = s /\ g' = g) \/
  (~ (1 < snakeLength s /\ snake s !!! 1%nat = new_head d s)
   /\ (exists k, (2 <= k < Z.to_nat (snakeLength s))%nat
                 /\ snake s !!! k = new_head d s)
   /\ r = 0 /\ s' = set_gameOver true s /\ g' = g) \/
  (clear_of_body d s /\ (r = 1 \/ r = 2)).
Proof.
  intros Hover Hrun. unfold MoveSnake in Hrun. rewrite Hover in Hrun.
  destruct ((1 <? snakeLength s) && Point.eqb (snake s !!! 1%nat) (new_head d s))
    eqn:Hrev.
  { injection Hrun as <- <- <-. left.
    apply andb_true_iff in Hrev as [Hl Heq]. apply point_eqb_eq in Heq.
    repeat split; [lia | exact Heq]. }
  assert (Hnrev : ~ (1 < snakeLength s /\ snake s !!! 1%nat = new_head d s)).
  { intros [Hl Heq]. apply andb_false_iff in Hrev as [Hrev|Hrev]; [lia|].
    apply point_eqb_neq in Hrev. contradiction. }
  destruct (hits 2 (Z.to_nat (snakeLength s - 2)) (snake s) (new_head d s))
    eqn:Hhit.
  { injection Hrun as <- <- <-. right; left.
    apply hits_true in Hhit as (k & Hk & Heq).
    split; [exact Hnrev|]. split; [exists k; split; [lia | exact Heq]|].
    repeat split. }
  right; right. split.
  - split.
    + intros Hl Heq. apply Hnrev. split; assumption.
    + intros k Hk. apply (proj1 (hits_false _ _ _ _) Hhit). lia.
  - destruct (negb (Point.eqb (new_head d s) (food s))).
    + injection Hrun as Hr _ _. left; congruence.
    + destruct (snakeLength s <? MAX_SNAKE_LENGTH).
      * destruct (GenerateFood fuel g (grow s)) as [[s2 g2]|]; [|discriminate].
        injection Hrun as Hr _ _. right; congruence.
      * injection Hrun as Hr _ _. right; congruence.
Qed.

(** With a valid direction, a new head that passed the guards is on no
    live segment. *)
Lemma clear_of_body_not_in d s :
  wf s -> valid_direction d -> clear_of_body d s -> new_head d s ∉ body s.
Proof.
  intros [Harr Hlen] Hd [Hrev Hbody] Hin. unfold body in Hin.
  apply elem_of_take in Hin as (k & Hk & Hlt).
  apply list_lookup_total_correct in Hk.
  destruct k as [|[|k]].
  - apply (new_head_moves d s Hd). symmetry. exact Hk.
  - apply Hrev; [lia | exact Hk].
  - apply (Hbody (S (S k))); [lia | exact Hk].
Qed.

End SnakeMoreFacts.

Module SnakeMoreTheorems.
Import Machine MachineFacts Snake SnakeMore SnakeFacts FoodFacts MoveFacts MoveCases.
Import SnakeMoreFacts.

(** Every result of [GenerateFood] is the first accepted round. *)
Lemma GenerateFood_result fuel : forall g s s' g',
  GenerateFood fuel g s = Some (s', g') ->
  exists k, (k < fuel)%nat /\
    (forall j, (j < k)%nat -> food_on_snake (set_food (sample g j) s) = true) /\
    food_on_snake (set_food (sample g k) s) = false /\
    s' = set_food (sample g k) s /\
    g' = Rng.mk (Rng.draws g) (Rng.pos g + 2 * S k).
Proof.
  induction fuel as [|f IH]; intros g s s' g' Hrun; [discriminate|].
  rewrite GenerateFood_round in Hrun. cbv zeta in Hrun.
  destruct (food_on_snake (set_food (sample g 0) s)) eqn:E.
  - apply IH in Hrun as (k & Hk & Hbefore & Hfree & -> & ->).
    exists (S k). split; [lia|]. split; [|split; [|split]].
    + intros j Hj. destruct j as [|j]; [exact E|].
      rewrite <- sample_next, <- (set_food_twice _ (sample g 0)).
      apply Hbefore. lia.
    + rewrite <- sample_next, <- (set_food_twice _ (sample g 0)). exact Hfree.
    + rewrite sample_next, set_food_twice. reflexivity.
    + cbn [Rng.draws Rng.pos]. f_equal. lia.
  - injection Hrun as <- <-. exists 0%nat. split; [lia|].
    split; [intros j Hj; lia|]. split; [exact E|]. split; [reflexivity|].
    f_equal. lia.
Qed.

(** X1. [GenerateFood] settles on the first drawn cell that lies on no
    live segment: if the cells of rounds [0 .. k-1] are on the snake and
    the cell of round [k] is not, then with more than [k] rounds of fuel
    it returns with that cell as the food (a cell of the board), the
    snake, the length and [gameOver] untouched, and [2 * (k + 1)] raw
    values drawn. *)
Theorem GenerateFood_first_free_cell (fuel k : nat) (g : Rng.t) (s : Game) :
  (Z.to_nat (snakeLength s) <= length (snake s))%nat ->
  (forall j, (j < k)%nat -> sample g j ∈ body s) ->
  sample g k ∉ body s ->
  (k < fuel)%nat ->
  GenerateFood fuel g s =
    Some (set_food (sample g k) s, Rng.mk (Rng.draws g) (Rng.pos g + 2 * S k)) /\
  on_board (sample g k).
Proof.
  intros Hn Hbefore Hfree Hfuel. split; [|apply sample_on_board].
  apply GenerateFood_first_accepted; [|apply food_on_snake_body; assumption|exact Hfuel].
  intros j Hj. apply food_on_snake_body_true; [exact Hn | apply Hbefore; exact Hj].
Qed.

Lemma GenerateFood_first_free_cell_witness :
  GenerateFood 2 (Rng.of_list [4; 4; 1; 1] 0) start =
    Some (set_food (Point.mk 1 1) start, Rng.mk (Rng.draws (Rng.of_list [4; 4; 1; 1] 0)) 4) /\
  on_board (Point.mk 1 1).
Proof.
  apply (GenerateFood_first_free_cell 2 1 (Rng.of_list [4; 4; 1; 1] 0) start).
  - simpl; lia.
  - intros j Hj. assert (j = 0%nat) as -> by lia. apply list_elem_of_here.
  - unfold body; simpl. intros Hin.
    repeat (apply elem_of_cons in Hin as [Hin|Hin]; [discriminate Hin|]).
    apply elem_of_nil in Hin. exact Hin.
  - lia.
Defined.

(** The three cells [Snake_Init] writes. *)
Lemma Snake_Init_array (a : list Point.t) :
  (3 <= length a)%nat ->
  <[2%nat := Point.mk 2 4]> (<[1%nat := Point.mk 3 4]> (<[0%nat := Point.mk 4 4]> a))
  = [Point.mk 4 4; Point.mk 3 4; Point.mk 2 4] ++ drop 3 a.
Proof.
  intros Hlen. destruct a as [|p0 [|p1 [|p2 a]]]; try (simpl in Hlen; lia).
  reflexivity.
Qed.

(** X2. [Snake_Init] from any state of the game: the first three slots
    become (4,4), (3,4), (2,4), the rest of the array is kept, the length
    is 3, [gameOver] is cleared, and the food is the first drawn cell
    that is none of the three. *)
Theorem Snake_Init_sets_up (fuel k : nat) (g : Rng.t) (s : Game) :
  wf s ->
  (forall j, (j < k)%nat ->
             sample g j ∈ [Point.mk 4 4; Point.mk 3 4; Point.mk 2 4]) ->
  sample g k ∉ [Point.mk 4 4; Point.mk 3 4; Point.mk 2 4] ->
  (k < fuel)%nat ->
  Snake_Init fuel g s =
    Some (mkGame ([Point.mk 4 4; Point.mk 3 4; Point.mk 2 4] ++ drop 3 (snake s))
                 3 (sample g k) false,
          Rng.mk (Rng.draws g) (Rng.pos g + 2 * S k)).
Proof.
  intros [Harr Hlen] Hbefore Hfree Hfuel. unfold MAX_SNAKE_LENGTH in Harr.
  unfold Snake_Init. rewrite Snake_Init_array by lia.
  rewrite (GenerateFood_first_accepted k).
  - reflexivity.
  - intros j Hj. apply food_on_snake_body_true.
    + cbn [snake snakeLength]. rewrite length_app, length_drop. simpl. lia.
    + apply Hbefore. exact Hj.
  - apply food_on_snake_body.
    + cbn [snake snakeLength]. rewrite length_app, length_drop. simpl. lia.
    + exact Hfree.
  - exact Hfuel.
Qed.

Lemma Snake_Init_sets_up_witness :
  Snake_Init 1 rng0 (set_gameOver true packed) =
    Some (mkGame ([Point.mk 4 4; Point.mk 3 4; Point.mk 2 4]
                    ++ drop 3 (snake (set_gameOver true packed)))
                 3 (sample rng0 0) false,
          Rng.mk (Rng.draws rng0) (Rng.pos rng0 + 2 * 1)).
Proof.
  apply (Snake_Init_sets_up 1 0 rng0 (set_gameOver true packed)).
  - split; [reflexivity | unfold MAX_SNAKE_LENGTH; simpl; lia].
  - intros j Hj. lia.
  - intros Hin.
    repeat (apply elem_of_cons in Hin as [Hin|Hin]; [discriminate Hin|]).
    apply elem_of_nil in Hin. exact Hin.
  - lia.
Defined.



Lemma wf_lengths s :
  wf s -> length (snake s) = 64%nat /\ 0 <= snakeLength s <= 64.
Proof. intros [Harr Hlen]. unfold MAX_SNAKE_LENGTH in *. split; [exact Harr | lia]. Qed.

Lemma body_take_take (a : list Point.t) (n m : nat) :
  (m <= n)%nat -> take m (take n a) = take m a.
Proof. intros Hmn. rewrite take_take. f_equal. lia. Qed.

(** X4. A plain move. On a running game with at least one segment, if
    the new head passes both guards and is not on the food, [MoveSnake]
    returns 1 and draws nothing; the body becomes the new head followed
    by the old body without its last segment; the length, the food,
    [gameOver] and the slots past the body are as before. *)
Theorem MoveSnake_plain_move (fuel : nat) (g : Rng.t) (d : Z) (s : Game) :
  wf s -> gameOver s = false -> 1 <= snakeLength s ->
  clear_of_body d s ->
  new_head d s <> food s ->
  let n := Z.to_nat (snakeLength s) in
  let s' := set_snake (new_head d s :: take (n - 1) (snake s) ++ drop n (snake s)) s in
  MoveSnake fuel g d s = Some (1, s', g) /\
  body s' = new_head d s :: take (n - 1) (body s) /\
  length (body s') = length (body s).
Proof.
  intros Hwf Hover Hpos Hclear Hfood n s'.
  destruct (wf_lengths s Hwf) as [Harr Hlen].
  assert (Hbody : body s' = new_head d s :: take (n - 1) (body s)).
  { unfold body. subst s'. cbn [set_snake snake snakeLength]. fold n.
    replace n with (S (n - 1)) at 1 by (subst n; lia). cbn [take]. f_equal.
    rewrite body_take_take by lia.
    apply take_app_length'. rewrite length_take, Harr. subst n. lia. }
  split; [|split; [exact Hbody|]].
  - rewrite MoveSnake_past_guards by assumption.
    assert (Hne : Point.eqb (new_head d s) (food s) = false)
      by (apply point_eqb_neq; exact Hfood).
    rewrite Hne. cbn [negb].
    rewrite to_i8_small by lia.
    replace (Z.to_nat (snakeLength s - 1)) with (n - 1)%nat by (subst n; lia).
    rewrite place_head_spec by (rewrite Harr; subst n; lia).
    replace (S (n - 1)) with n by (subst n; lia). reflexivity.
  - rewrite Hbody. unfold body. fold n.
    cbn [length]. rewrite !length_take, Harr. subst n. lia.
Qed.

Lemma MoveSnake_plain_move_witness :
  let n := Z.to_nat (snakeLength start) in
  let s' := set_snake (new_head 1 start :: take (n - 1) (snake start)
                         ++ drop n (snake start)) start in
  MoveSnake 0 rng0 1 start = Some (1, s', rng0) /\
  body s' = new_head 1 start :: take (n - 1) (body start) /\
  length (body s') = length (body start).
Proof.
  apply (MoveSnake_plain_move 0 rng0 1 start).
  - split; [reflexivity | unfold MAX_SNAKE_LENGTH; simpl; lia].
  - reflexivity.
  - simpl; lia.
  - split.
    + intros _. simpl. discriminate.
    + intros k Hk. simpl in Hk. assert (k = 2%nat) as -> by lia.
      simpl. discriminate.
  - simpl. discriminate.
Defined.

(** X5. A growing move. On a running game with at least one segment and
    room in the array, if the new head passes both guards and is on the
    food, and round [k] is the first to draw a cell off the old body,
    then with more than [k] rounds of fuel [MoveSnake] returns 2: the
    body is the new head followed by the whole old body, the length is
    one more, and the food is that cell. *)
Theorem MoveSnake_growing_move (fuel k : nat) (g : Rng.t) (d : Z) (s : Game) :
  wf s -> gameOver s = false ->
  1 <= snakeLength s < MAX_SNAKE_LENGTH ->
  clear_of_body d s ->
  new_head d s = food s ->
  (forall j, (j < k)%nat -> sample g j ∈ body s) ->
  sample g k ∉ body s ->
  (k < fuel)%nat ->
  let n := Z.to_nat (snakeLength s) in
  let s' := mkGame (new_head d s :: take n (snake s) ++ drop (S n) (snake s))
                   (snakeLength s + 1) (sample g k) false in
  MoveSnake fuel g d s
    = Some (2, s', Rng.mk (Rng.draws g) (Rng.pos g + 2 * S k)) /\
  body s' = new_head d s :: body s.
Proof.
  intros Hwf Hover Hlen Hclear Hfood Hbefore Hfree Hfuel n s'.
  destruct (wf_lengths s Hwf) as [Harr Hbound].
  assert (Hcap : snakeLength s < MAX_SNAKE_LENGTH) by lia.
  unfold MAX_SNAKE_LENGTH in Hlen.
  assert (Hscan : forall p, p ∈ body (grow s) <-> p ∈ body s).
  { intros p. unfold body at 1. rewrite grow_scan by assumption.
    fold (body s). rewrite elem_of_app. split; [|right; assumption].
    intros [Hin|Hin]; [|exact Hin].
    unfold body. revert Hin. apply take_mono. lia. }
  assert (Hsize : (Z.to_nat (snakeLength (grow s)) <= length (snake (grow s)))%nat).
  { rewrite grow_length by assumption. unfold grow; cbn [snake].
    rewrite shift_body_length, Harr. lia. }
  split.
  - rewrite MoveSnake_past_guards by assumption.
    assert (Heq : Point.eqb (new_head d s) (food s) = true)
      by (apply point_eqb_eq; exact Hfood).
    rewrite Heq. cbn [negb].
    assert (Hlt : (snakeLength s <? MAX_SNAKE_LENGTH) = true) by lia.
    rewrite Hlt.
    rewrite (GenerateFood_first_accepted k).
    + unfold set_snake. cbn [set_food snake snakeLength food gameOver].
      rewrite grow_snake, grow_length by assumption.
      subst s' n. unfold grow at 1; cbn [gameOver]. rewrite Hover. reflexivity.
    + intros j Hj. apply food_on_snake_body_true; [exact Hsize|].
      apply Hscan. apply Hbefore. exact Hj.
    + apply food_on_snake_body; [exact Hsize|].
      intros Hin. apply Hfree. apply Hscan. exact Hin.
    + exact Hfuel.
  - unfold body. subst s'. cbn [snake snakeLength].
    replace (Z.to_nat (snakeLength s + 1)) with (S n) by (subst n; lia).
    cbn [take]. f_equal. fold n. apply take_app_length'.
    rewrite length_take, Harr. subst n. lia.
Qed.

Lemma MoveSnake_growing_move_witness :
  let g := draws_cell (Point.mk 0 0) in
  let n := Z.to_nat (snakeLength start_fed) in
  let s' := mkGame (new_head 1 start_fed :: take n (snake start_fed)
                      ++ drop (S n) (snake start_fed))
                   (snakeLength start_fed + 1) (sample g 0) false in
  MoveSnake 1 g 1 start_fed
    = Some (2, s', Rng.mk (Rng.draws g) (Rng.pos g + 2 * 1)) /\
  body s' = new_head 1 start_fed :: body start_fed.
Proof.
  apply (MoveSnake_growing_move 1 0 (draws_cell (Point.mk 0 0)) 1 start_fed).
  - split; [reflexivity | unfold MAX_SNAKE_LENGTH; simpl; lia].
  - reflexivity.
  - unfold MAX_SNAKE_LENGTH; simpl; lia.
  - split.
    + intros _. simpl. discriminate.
    + intros k Hk. simpl in Hk. assert (k = 2%nat) as -> by lia.
      simpl. discriminate.
  - reflexivity.
  - intros j Hj. lia.
  - unfold body; simpl. intros Hin.
    repeat (apply elem_of_cons in Hin as [Hin|Hin]; [discriminate Hin|]).
    apply elem_of_nil in Hin. exact Hin.
  - lia.
Defined.

(** The body after each case, as the new head in front of a sublist of
    the old body. *)
Lemma move_case_body_sublist d s r s' :
  wf s -> move_case d s r s' ->
  body s' = body s \/ body s' = [] \/
  exists l, body s' = new_head d s :: l /\ l `sublist_of` body s.
Proof.
  intros Hwf Hcase. destruct (wf_lengths s Hwf) as [Harr Hlen].
  destruct Hcase as [Hover|Hover Hl Hrev|Hover Hhit|Hover Hfood
                    |f Hover Hfood Hcap Hon Hfree|Hover Hfood Hcap].
  - left; reflexivity.
  - left; reflexivity.
  - left; reflexivity.
  - destruct (decide (snakeLength s = 0)) as [Hz|Hnz].
    + right; left. unfold body; cbn [set_snake snakeLength]. rewrite Hz.
      reflexivity.
    + right; right. exists (take (Z.to_nat (snakeLength s - 1)) (body s)). split.
      * unfold body; cbn [set_snake snakeLength snake].
        rewrite to_i8_small by lia.
        rewrite place_head_spec by (rewrite Harr; lia).
        replace (Z.to_nat (snakeLength s)) with (S (Z.to_nat (snakeLength s - 1)))
          at 1 by lia.
        cbn [take]. f_equal. rewrite body_take_take by lia.
        apply take_app_length'. rewrite length_take, Harr. lia.
      * apply sublist_take.
  - right; right. exists (body s). split; [|reflexivity].
    unfold body; cbn [snakeLength snake].
    rewrite grow_length, grow_snake by assumption.
    unfold MAX_SNAKE_LENGTH in Hcap.
    replace (Z.to_nat (snakeLength s + 1)) with (S (Z.to_nat (snakeLength s)))
      by lia.
    cbn [take]. f_equal. apply take_app_length'.
    rewrite length_take, Harr. lia.
  - assert (Heq : snakeLength s = 64) by (unfold MAX_SNAKE_LENGTH in Hcap; lia).
    right; right. unfold body; cbn [set_snake snakeLength snake]. rewrite Heq.
    destruct (snake s) as [|p a]; [simpl in Harr; lia|].
    exists (take 63 a). split; [reflexivity|].
    change (Z.to_nat 64) with 64%nat. cbn [take].
    apply sublist_cons. reflexivity.
Qed.

(** X6. Distinct segments stay distinct. With a valid direction, if no
    two live segments of the snake share a cell before [MoveSnake], none
    do after it, whatever the result. *)
Theorem MoveSnake_keeps_segments_distinct
  (fuel : nat) (g : Rng.t) (d : Z) (s : Game) r s' g' :
  wf s -> valid_direction d -> NoDup (body s) ->
  MoveSnake fuel g d s = Some (r, s', g') ->
  NoDup (body s').
Proof.
  intros Hwf Hd Hnodup Hrun.
  pose proof (MoveSnake_cases _ _ _ _ _ _ _ Hrun) as Hcase.
  destruct (move_case_body_sublist d s r s' Hwf Hcase)
    as [-> | [-> | (l & Hbody & Hsub)]]; [exact Hnodup | constructor |].
  destruct (gameOver s) eqn:Hover.
  { unfold MoveSnake in Hrun. rewrite Hover in Hrun.
    injection Hrun as <- <- <-. exact Hnodup. }
  destruct (MoveSnake_guards _ _ _ _ _ _ _ Hover Hrun)
    as [(_ & _ & _ & -> & _) | [(_ & _ & _ & -> & _) | [Hclear _]]];
    [exact Hnodup | exact Hnodup |].
  rewrite Hbody. apply NoDup_cons. split.
  - intros Hin. apply (clear_of_body_not_in d s Hwf Hd Hclear).
    eapply elem_of_sublist; [exact Hin | exact Hsub].
  - apply (sublist_NoDup l (body s)); assumption.
Qed.

Lemma MoveSnake_keeps_segments_distinct_witness :
  NoDup (body (mkGame ([Point.mk 4 5; Point.mk 4 4; Point.mk 3 4; Point.mk 2 4]
                         ++ drop 4 (snake start_fed)) 4 (Point.mk 0 0) false)).
Proof.
  apply (MoveSnake_keeps_segments_distinct 1 (draws_cell (Point.mk 0 0)) 1 start_fed
           2 _ (Rng.mk (Rng.draws (draws_cell (Point.mk 0 0))) 2)).
  - split; [reflexivity | unfold MAX_SNAKE_LENGTH; simpl; lia].
  - unfold valid_direction; lia.
  - apply (bool_decide_unpack _). vm_compute. reflexivity.
  - reflexivity.
Defined.

(** X7. Self collision, the tail included. On a running game, if the new
    head is not the second segment but lies on some segment of index 2
    or more -- the last one too, although a plain move would vacate that
    cell -- [MoveSnake] sets [gameOver], changes nothing else, draws
    nothing and returns 0; and a running game returns 0 in no other way. *)
Theorem MoveSnake_self_collision (d : Z) (s : Game) :
  gameOver s = false ->
  (forall fuel g k,
      ~ (1 < snakeLength s /\ snake s !!! 1%nat = new_head d s) ->
      (2 <= k < Z.to_nat (snakeLength s))%nat ->
      snake s !!! k = new_head d s ->
      MoveSnake fuel g d s = Some (0, set_gameOver true s, g)) /\
  (forall fuel g s' g',
      MoveSnake fuel g d s = Some (0, s', g') ->
      snake s !!! 1%nat <> new_head d s /\
      exists k, (2 <= k < Z.to_nat (snakeLength s))%nat
                /\ snake s !!! k = new_head d s).
Proof.
  intros Hover. split.
  - intros fuel g k Hnrev Hk Heq. unfold MoveSnake. rewrite Hover.
    assert (Hguard : (1 <? snakeLength s)
                     && Point.eqb (snake s !!! 1%nat) (new_head d s) = false).
    { apply andb_false_iff. right. apply point_eqb_neq.
      intros Heq1. apply Hnrev. split; [lia | exact Heq1]. }
    rewrite Hguard.
    assert (Hhit : hits 2 (Z.to_nat (snakeLength s - 2)) (snake s) (new_head d s)
                   = true).
    { apply hits_true. exists k. split; [lia | exact Heq]. }
    rewrite Hhit. reflexivity.
  - intros fuel g s' g' Hrun.
    destruct (MoveSnake_guards _ _ _ _ _ _ _ Hover Hrun)
      as [(_ & _ & Hr & _) | [(Hnrev & (k & Hk & Heq) & _) | [_ [Hr|Hr]]]];
      try discriminate.
    split; [|exists k; split; assumption].
    intros Heq1. apply Hnrev. split; [lia | exact Heq1].
Qed.

Lemma MoveSnake_self_collision_witness :
  let s := mkGame ([Point.mk 4 4; Point.mk 4 3; Point.mk 3 3; Point.mk 3 4]
                     ++ replicate 60 (Point.mk 0 0)) 4 (Point.mk 0 0) false in
  (forall fuel g k,
      ~ (1 < snakeLength s /\ snake s !!! 1%nat = new_head 0 s) ->
      (2 <= k < Z.to_nat (snakeLength s))%nat ->
      snake s !!! k = new_head 0 s ->
      MoveSnake fuel g 0 s = Some (0, set_gameOver true s, g)) /\
  (forall fuel g s' g',
      MoveSnake fuel g 0 s = Some (0, s', g') ->
      snake s !!! 1%nat <> new_head 0 s /\
      exists k, (2 <= k < Z.to_nat (snakeLength s))%nat
                /\ snake s !!! k = new_head 0 s).
Proof.
  apply (MoveSnake_self_collision 0
           (mkGame ([Point.mk 4 4; Point.mk 4 3; Point.mk 3 3; Point.mk 3 4]
                      ++ replicate 60 (Point.mk 0 0)) 4 (Point.mk 0 0) false)).
  reflexivity.
Defined.

(** A square of four segments: moving up from (4,4) enters the cell of
    the last segment and ends the game. *)
Example MoveSnake_into_tail :
  MoveSnake 0 rng0 0
    (mkGame ([Point.mk 4 4; Point.mk 4 3; Point.mk 3 3; Point.mk 3 4]
               ++ replicate 60 (Point.mk 0 0)) 4 (Point.mk 0 0) false)
  = Some (0,
          mkGame ([Point.mk 4 4; Point.mk 4 3; Point.mk 3 3; Point.mk 3 4]
                    ++ replicate 60 (Point.mk 0 0)) 4 (Point.mk 0 0) true,
          rng0).
Proof. reflexivity. Qed.

(** X8. [MoveSnake] draws random values only when the snake grows: a
    result other than 2, or a full array, leaves the generator as it
    was; a growing move draws two values per round of [GenerateFood]
    and no more than the fuel allows. *)
Theorem MoveSnake_draws (fuel : nat) (g : Rng.t) (d : Z) (s : Game) r s' g' :
  MoveSnake fuel g d s = Some (r, s', g') ->
  (r <> 2 \/ MAX_SNAKE_LENGTH <= snakeLength s -> g' = g) /\
  (r = 2 -> snakeLength s < MAX_SNAKE_LENGTH ->
   exists k, (k < fuel)%nat /\
             g' = Rng.mk (Rng.draws g) (Rng.pos g + 2 * S k) /\
             food s' = sample g k).
Proof.
  intros Hrun. unfold MoveSnake in Hrun.
  destruct (gameOver s).
  { injection Hrun as <- <- <-. split; [reflexivity | discriminate]. }
  destruct ((1 <? snakeLength s) && Point.eqb (snake s !!! 1%nat) (new_head d s)).
  { injection Hrun as <- <- <-. split; [reflexivity | discriminate]. }
  destruct (hits 2 (Z.to_nat (snakeLength s - 2)) (snake s) (new_head d s)).
  { injection Hrun as <- <- <-. split; [reflexivity | discriminate]. }
  destruct (negb (Point.eqb (new_head d s) (food s))).
  { injection Hrun as <- <- <-. split; [reflexivity | discriminate]. }
  destruct (snakeLength s <? MAX_SNAKE_LENGTH) eqn:Hcap.
  - destruct (GenerateFood fuel g (grow s)) as [[s2 g2]|] eqn:Hgen; [|discriminate].
    injection Hrun as <- <- <-.
    apply GenerateFood_result in Hgen as (k & Hk & _ & _ & -> & ->).
    split; [intros [Hr|Hfull]; [congruence | lia]|].
    intros _ _. exists k. repeat split. exact Hk.
  - injection Hrun as <- <- <-. split; [reflexivity | intros _ Hlt; lia].
Qed.

Lemma MoveSnake_draws_witness :
  (2 <> 2 \/ MAX_SNAKE_LENGTH <= snakeLength start_fed ->
   Rng.mk (Rng.draws (draws_cell (Point.mk 0 0))) 2 = draws_cell (Point.mk 0 0)) /\
  (2 = 2 -> snakeLength start_fed < MAX_SNAKE_LENGTH ->
   exists k, (k < 1)%nat /\
             Rng.mk (Rng.draws (draws_cell (Point.mk 0 0))) 2
             = Rng.mk (Rng.draws (draws_cell (Point.mk 0 0)))
                      (Rng.pos (draws_cell (Point.mk 0 0)) + 2 * S k) /\
             food (mkGame ([Point.mk 4 5; Point.mk 4 4; Point.mk 3 4; Point.mk 2 4]
                             ++ drop 4 (snake start_fed)) 4 (Point.mk 0 0) false)
             = sample (draws_cell (Point.mk 0 0)) k).
Proof.
  apply (MoveSnake_draws 1 (draws_cell (Point.mk 0 0)) 1 start_fed 2
           (mkGame ([Point.mk 4 5; Point.mk 4 4; Point.mk 3 4; Point.mk 2 4]
                      ++ drop 4 (snake start_fed)) 4 (Point.mk 0 0) false)
           (Rng.mk (Rng.draws (draws_cell (Point.mk 0 0))) 2)).
  reflexivity.
Defined.

(** X9. The new food can land under the new head. [GenerateFood] runs
    before [snake[0] = newHead] and scans the old segments only, so on a
    growing move with a valid direction, a generator whose first round
    draws the cell of the new head is accepted at once: the game returns
    with the food on the head of the snake. *)
Theorem MoveSnake_food_under_new_head (fuel : nat) (g : Rng.t) (d : Z) (s : Game) :
  wf s -> gameOver s = false -> valid_direction d ->
  1 <= snakeLength s < MAX_SNAKE_LENGTH ->
  clear_of_body d s ->
  new_head d s = food s ->
  sample g 0 = new_head d s ->
  (0 < fuel)%nat ->
  exists s' g',
    MoveSnake fuel g d s = Some (2, s', g') /\
    snake s' !!! 0%nat = new_head d s /\
    food s' = snake s' !!! 0%nat /\
    food s' ∈ body s'.
Proof.
  intros Hwf Hover Hd Hlen Hclear Hfood Hdraw Hfuel.
  destruct (wf_lengths s Hwf) as [Harr Hbound].
  assert (Hcap : snakeLength s < MAX_SNAKE_LENGTH) by lia.
  unfold MAX_SNAKE_LENGTH in Hlen.
  assert (Hsize : (Z.to_nat (snakeLength (grow s)) <= length (snake (grow s)))%nat).
  { rewrite grow_length by assumption. unfold grow; cbn [snake].
    rewrite shift_body_length, Harr. lia. }
  assert (Hfree : food_on_snake (set_food (sample g 0) (grow s)) = false).
  { apply food_on_snake_body; [exact Hsize|]. rewrite Hdraw.
    unfold body. rewrite grow_scan by assumption. intros Hin.
    apply (clear_of_body_not_in d s Hwf Hd Hclear).
    apply elem_of_app in Hin as [Hin|Hin]; [|exact Hin].
    unfold body. revert Hin. apply take_mono. lia. }
  eexists _, _. split.
  - rewrite MoveSnake_past_guards by assumption.
    assert (Heq : Point.eqb (new_head d s) (food s) = true)
      by (apply point_eqb_eq; exact Hfood).
    rewrite Heq. cbn [negb].
    assert (Hlt : (snakeLength s <? MAX_SNAKE_LENGTH) = true)
      by (unfold MAX_SNAKE_LENGTH; lia).
    rewrite Hlt.
    rewrite (GenerateFood_first_accepted 0); [reflexivity | | exact Hfree | exact Hfuel].
    intros j Hj. lia.
  - unfold set_snake, set_food. cbn [snake food snakeLength].
    assert (Hhead : <[0%nat := new_head d s]> (snake (grow s)) !!! 0%nat
                    = new_head d s).
    { apply list_lookup_total_insert_eq. unfold grow; cbn [snake].
      rewrite shift_body_length, Harr. lia. }
    split; [exact Hhead|]. split; [rewrite Hhead; exact Hdraw|].
    unfold body, set_snake, set_food. cbn [snake snakeLength food].
    rewrite grow_length, grow_snake by assumption.
    replace (Z.to_nat (snakeLength s + 1)) with (S (Z.to_nat (snakeLength s)))
      by lia.
    cbn [take]. rewrite Hdraw. apply list_elem_of_here.
Qed.

Lemma MoveSnake_food_under_new_head_witness :
  exists s' g',
    MoveSnake 1 (draws_cell (Point.mk 4 5)) 1 start_fed = Some (2, s', g') /\
    snake s' !!! 0%nat = new_head 1 start_fed /\
    food s' = snake s' !!! 0%nat /\
    food s' ∈ body s'.
Proof.
  apply (MoveSnake_food_under_new_head 1 (draws_cell (Point.mk 4 5)) 1 start_fed).
  - split; [reflexivity | unfold MAX_SNAKE_LENGTH; simpl; lia].
  - reflexivity.
  - unfold valid_direction; lia.
  - unfold MAX_SNAKE_LENGTH; simpl; lia.
  - split.
    + intros _. simpl. discriminate.
    + intros k Hk. simpl in Hk. assert (k = 2%nat) as -> by lia.
      simpl. discriminate.
  - reflexivity.
  - reflexivity.
  - lia.
Defined.

End SnakeMoreTheorems.

(** ** The snake game: the display *)

Module SnakeDisplayTheorems.
Import Machine MachineFacts Snake SnakeMore SnakeFacts.

Lemma pixel_index_on_board p :
  on_board p ->
  pixel_index p = Point.x p * 8 + Point.y p /\ 0 <= pixel_index p < 64.
Proof.
  intros [Hx Hy]. unfold pixel_index, Matrix_Row, Matrix_Col in *.
  rewrite to_u8_small by lia. lia.
Qed.

Lemma pixel_index_inj p q :
  on_board p -> on_board q -> Z.to_nat (pixel_index p) = Z.to_nat (pixel_index q) ->
  p = q.
Proof.
  intros Hp Hq Heq.
  destruct (pixel_index_on_board p Hp) as [Ep Rp].
  destruct (pixel_index_on_board q Hq) as [Eq Rq].
  destruct Hp as [Hpx Hpy], Hq as [Hqx Hqy]. unfold Matrix_Row, Matrix_Col in *.
  destruct p as [a b], q as [c d]; cbn [Point.x Point.y] in *.
  assert (a = c /\ b = d) as [-> ->] by lia. reflexivity.
Qed.

Lemma setPixelColor_length n c px : length (setPixelColor n c px) = length px.
Proof. unfold setPixelColor. destruct (n <? RGB_COUNT); [apply length_insert | reflexivity]. Qed.

Lemma setPixelColor_same n c px :
  0 <= n < 64 -> (Z.to_nat n < length px)%nat ->
  setPixelColor n c px !!! Z.to_nat n = c.
Proof.
  intros Hn Hlen. unfold setPixelColor, RGB_COUNT.
  destruct (n <? 64) eqn:E; [|lia].
  apply list_lookup_total_insert_eq. exact Hlen.
Qed.

Lemma setPixelColor_other n c px k :
  Z.to_nat n <> k -> setPixelColor n c px !!! k = px !!! k.
Proof.
  intros Hne. unfold setPixelColor. destruct (n <? RGB_COUNT); [|reflexivity].
  apply list_lookup_total_insert_ne. exact Hne.
Qed.

Lemma draw_body_length count : forall i a px,
  length (draw_body i count a px) = length px.
Proof.
  induction count as [|c IH]; intros i a px; [reflexivity|].
  cbn [draw_body]. rewrite IH. apply setPixelColor_length.
Qed.

(** A pixel no drawn segment maps to keeps its colour. *)
Lemma draw_body_miss count : forall i a px k,
  (forall j, (i <= j < i + count)%nat -> Z.to_nat (pixel_index (a !!! j)) <> k) ->
  draw_body i count a px !!! k = px !!! k.
Proof.
  induction count as [|c IH]; intros i a px k Hmiss; [reflexivity|].
  cbn [draw_body]. rewrite IH by (intros j Hj; apply Hmiss; lia).
  apply setPixelColor_other. apply Hmiss. lia.
Qed.

(** A pixel some drawn segment maps to ends in the body colour. *)
Lemma draw_body_hit count : forall i a px k,
  (k < length px)%nat ->
  px !!! k = Color3 bodyColor \/
  (exists j, (i <= j < i + count)%nat /\ 0 <= pixel_index (a !!! j) < 64
             /\ Z.to_nat (pixel_index (a !!! j)) = k) ->
  draw_body i count a px !!! k = Color3 bodyColor.
Proof.
  induction count as [|c IH]; intros i a px k Hk Hhit.
  - destruct Hhit as [Hpx|(j & Hj & _)]; [exact Hpx | lia].
  - cbn [draw_body]. apply IH; [rewrite setPixelColor_length; exact Hk|].
    destruct (decide (Z.to_nat (pixel_index (a !!! i)) = k)) as [Heq|Hne].
    + destruct (decide (0 <= pixel_index (a !!! i) < 64)) as [Hin|Hout].
      * left. rewrite <- Heq. apply setPixelColor_same; [exact Hin | lia].
      * destruct Hhit as [Hpx|(j & Hj & Hr & Hjk)].
        -- left. unfold setPixelColor, RGB_COUNT.
           destruct (pixel_index (a !!! i) <? 64) eqn:E; [|exact Hpx].
           unfold pixel_index in *. pose proof (to_u8_range
             (Point.x (a !!! i) * Matrix_Col + Point.y (a !!! i))). lia.
        -- destruct (decide (j = i)) as [->|Hji]; [contradiction|].
           right. exists j. split; [lia | split; assumption].
    + destruct Hhit as [Hpx|(j & Hj & Hr & Hjk)].
      * left. rewrite setPixelColor_other by exact Hne. exact Hpx.
      * destruct (decide (j = i)) as [->|Hji]; [contradiction|].
        right. exists j. split; [lia | split; assumption].
Qed.

(** X10. What [UpdateDisplay] shows. For a snake of at least one segment
    with body and food on the board, on a strip of 64 pixels: the frame
    has 64 pixels; the pixel of the food has the food colour (also when
    the head is on the food: the food is drawn last); otherwise the pixel
    of the head has the head colour; every other body cell has the body
    colour; and every cell that is neither on the body nor the food is
    blank. *)
Theorem UpdateDisplay_frame (s : Game) (px : list Z) :
  wf s -> 1 <= snakeLength s ->
  Forall on_board (body s) -> on_board (food s) ->
  length px = 64%nat ->
  let fr := UpdateDisplay s px in
  let at_cell p := fr !!! Z.to_nat (pixel_index p) in
  let head := snake s !!! 0%nat in
  length fr = 64%nat /\
  at_cell (food s) = Color3 foodColor /\
  (head <> food s -> at_cell head = Color3 headColor) /\
  (forall p, p ∈ body s -> p <> head -> p <> food s ->
             at_cell p = Color3 bodyColor) /\
  (forall p, on_board p -> p ∉ body s -> p <> food s -> at_cell p = 0).
Proof.
  intros [Harr Hlen] Hpos Hbody Hfood Hpx fr at_cell head.
  unfold MAX_SNAKE_LENGTH in Harr, Hlen.
  set (n := Z.to_nat (snakeLength s)).
  assert (Hseg : forall j, (j < n)%nat -> snake s !!! j ∈ body s).
  { intros j Hj. unfold body. fold n. apply elem_of_take. exists j. split; [|exact Hj].
    apply list_lookup_lookup_total_lt. rewrite Harr. subst n. lia. }
  assert (Hon : forall p, p ∈ body s -> on_board p)
    by (apply Forall_forall; exact Hbody).
  assert (Hhead : head ∈ body s) by (apply Hseg; subst n; lia).
  set (px1 := clear px).
  set (px2 := draw_body 1 (Z.to_nat (snakeLength s - 1)) (snake s) px1).
  set (px3 := setPixelColor (pixel_index head) (Color3 headColor) px2).
  assert (Hl1 : length px1 = 64%nat)
    by (unfold px1, clear; rewrite length_replicate; exact Hpx).
  assert (Hl2 : length px2 = 64%nat)
    by (unfold px2; rewrite draw_body_length; exact Hl1).
  assert (Hl3 : length px3 = 64%nat)
    by (unfold px3; rewrite setPixelColor_length; exact Hl2).
  assert (Hfr : fr = setPixelColor (pixel_index (food s)) (Color3 foodColor) px3)
    by reflexivity.
  assert (Hidx : forall p, on_board p -> 0 <= pixel_index p < 64)
    by (intros p Hp; apply pixel_index_on_board; exact Hp).
  split; [rewrite Hfr, setPixelColor_length; exact Hl3|].
  split; [|split; [|split]].
  - unfold at_cell. rewrite Hfr. apply setPixelColor_same; [apply Hidx; exact Hfood|].
    rewrite Hl3. pose proof (Hidx _ Hfood). lia.
  - intros Hne. unfold at_cell. rewrite Hfr.
    rewrite setPixelColor_other.
    + unfold px3. apply setPixelColor_same; [apply Hidx, Hon, Hhead|].
      rewrite Hl2. pose proof (Hidx _ (Hon _ Hhead)). lia.
    + intros Heq. apply Hne. symmetry.
      apply pixel_index_inj; [exact Hfood | apply Hon, Hhead | exact Heq].
  - intros p Hp Hnh Hnf. unfold at_cell. rewrite Hfr.
    rewrite setPixelColor_other
      by (intros Heq; apply Hnf; symmetry;
          apply pixel_index_inj; [exact Hfood | apply Hon, Hp | exact Heq]).
    unfold px3. rewrite setPixelColor_other
      by (intros Heq; apply Hnh; symmetry;
          apply pixel_index_inj; [apply Hon, Hhead | apply Hon, Hp | exact Heq]).
    unfold px2. apply draw_body_hit.
    + rewrite Hl1. pose proof (Hidx _ (Hon _ Hp)). lia.
    + right. unfold body in Hp. apply elem_of_take in Hp as (j & Hj & Hlt).
      apply list_lookup_total_correct in Hj.
      destruct j as [|j]; [exfalso; apply Hnh; symmetry; exact Hj|].
      exists (S j). split; [lia|]. rewrite Hj. split; [|reflexivity].
      apply Hidx, Hon. unfold body. apply elem_of_take. exists (S j).
      split; [|exact Hlt]. rewrite <- Hj.
      apply list_lookup_lookup_total_lt. rewrite Harr. lia.
  - intros p Hp Hout Hnf. unfold at_cell. rewrite Hfr.
    rewrite setPixelColor_other
      by (intros Heq; apply Hnf; symmetry;
          apply pixel_index_inj; [exact Hfood | exact Hp | exact Heq]).
    unfold px3. rewrite setPixelColor_other.
    2:{ intros Heq. apply Hout.
        replace p with head; [exact Hhead|].
        apply pixel_index_inj; [apply Hon, Hhead | exact Hp | exact Heq]. }
    unfold px2. rewrite draw_body_miss.
    + unfold px1, clear. apply lookup_total_replicate_2.
      rewrite Hpx. pose proof (Hidx _ Hp). lia.
    + intros j Hj Heq. apply Hout.
      assert (Hin : snake s !!! j ∈ body s) by (apply Hseg; subst n; lia).
      replace p with (snake s !!! j); [exact Hin|].
      apply pixel_index_inj; [apply Hon, Hin | exact Hp | exact Heq].
Qed.

Lemma UpdateDisplay_frame_witness :
  let fr := UpdateDisplay start_fed (replicate 64 7) in
  let at_cell p := fr !!! Z.to_nat (pixel_index p) in
  let head := snake start_fed !!! 0%nat in
  length fr = 64%nat /\
  at_cell (food start_fed) = Color3 foodColor /\
  (head <> food start_fed -> at_cell head = Color3 headColor) /\
  (forall p, p ∈ body start_fed -> p <> head -> p <> food start_fed ->
             at_cell p = Color3 bodyColor) /\
  (forall p, on_board p -> p ∉ body start_fed -> p <> food start_fed ->
             at_cell p = 0).
Proof.
  apply (UpdateDisplay_frame start_fed (replicate 64 7)).
  - split; [reflexivity | unfold MAX_SNAKE_LENGTH; simpl; lia].
  - simpl; lia.
  - unfold body, on_board, Matrix_Row, Matrix_Col; simpl.
    repeat constructor; simpl; lia.
  - unfold on_board, Matrix_Row, Matrix_Col; simpl; lia.
  - reflexivity.
Defined.

End SnakeDisplayTheorems.

(** ** The XY mapper: clamping, calibration and frame export *)

Module MatrixUtilMoreFacts.
Import Machine MachineFacts MatrixUtil MatrixUtilFacts MatrixUtilFrames.

Section Panel.
Variable cfg : PanelConfig.
Hypothesis Hok : panel_ok cfg.

Local Abbreviation W := (MATRIX_WIDTH cfg).
Local Abbreviation H := (MATRIX_HEIGHT cfg).

Lemma MU_XY_in_range x y :
  in_panel cfg (x, y) -> 0 <= MU_XY cfg x y < W * H.
Proof.
  intros Hp. rewrite MU_XY_stages by assumption.
  apply wire_range; [exact Hok|].
  apply flip_in_panel; [exact Hok|]. apply rotate_in_panel; assumption.
Qed.

Lemma MU_XY_one_to_one x y x' y' :
  in_panel cfg (x, y) -> in_panel cfg (x', y') ->
  MU_XY cfg x y = MU_XY cfg x' y' -> (x, y) = (x', y').
Proof.
  intros Hp Hq. rewrite !MU_XY_stages by assumption. intros Heq.
  apply wire_inj in Heq;
    [|exact Hok|apply flip_in_panel, rotate_in_panel; assumption..].
  apply flip_inj in Heq; [|exact Hok|apply rotate_in_panel; assumption..].
  apply rotate_inj in Heq; assumption.
Qed.

Lemma MU_XY_onto i :
  0 <= i < W * H -> exists x y, in_panel cfg (x, y) /\ MU_XY cfg x y = i.
Proof.
  intros Hi.
  destruct (wire_surj cfg Hok i Hi) as (p2 & Hp2 & Hw).
  destruct (flip_surj cfg Hok p2 Hp2) as (p1 & Hp1 & Hf).
  destruct (rotate_surj cfg Hok p1 Hp1) as ([x y] & Hp & Hr).
  exists x, y. split; [exact Hp|].
  rewrite MU_XY_stages by assumption. rewrite Hr, Hf. exact Hw.
Qed.

(** The casts and the clamps send any pair of arguments into the panel. *)
Lemma clamp_any x y :
  clamp cfg (to_u8 x, to_u8 y)
    = (Z.min (to_u8 x) (W - 1), Z.min (to_u8 y) (H - 1)) /\
  in_panel cfg (Z.min (to_u8 x) (W - 1), Z.min (to_u8 y) (H - 1)).
Proof.
  destruct Hok as (HW & HH & _).
  pose proof (to_u8_range x) as Hx. pose proof (to_u8_range y) as Hy.
  unfold clamp, in_panel. cbn [fst snd].
  rewrite (to_u8_small (W - 1)), (to_u8_small (H - 1)) by lia.
  destruct (to_u8 x >=? W) eqn:E1, (to_u8 y >=? H) eqn:E2;
    (split; [f_equal; lia | lia]).
Qed.

End Panel.
End MatrixUtilMoreFacts.

Module MatrixUtilMoreTheorems.
Import Machine MachineFacts MatrixUtil MatrixUtilFacts MatrixUtilFrames.
Import MatrixUtilMoreFacts.

(** X11. Out-of-range arguments are clamped, never rejected: for every
    pair of arguments, [MU_XY] is the index of the nearest cell of the
    panel (each argument, taken as a [uint8_t], cut down to the last
    column or row), and the index lies in [0, W * H). *)
Theorem MU_XY_clamps (cfg : PanelConfig) (x y : Z) :
  panel_ok cfg ->
  let cx := Z.min (to_u8 x) (MATRIX_WIDTH cfg - 1) in
  let cy := Z.min (to_u8 y) (MATRIX_HEIGHT cfg - 1) in
  in_panel cfg (cx, cy) /\
  MU_XY cfg x y = MU_XY cfg cx cy /\
  0 <= MU_XY cfg x y < MATRIX_WIDTH cfg * MATRIX_HEIGHT cfg.
Proof.
  intros Hok cx cy.
  destruct (clamp_any cfg Hok x y) as [Hclamp Hin]. fold cx cy in Hclamp, Hin.
  assert (Heq : MU_XY cfg x y = MU_XY cfg cx cy).
  { rewrite (MU_XY_stages cfg Hok cx cy Hin). unfold MU_XY. rewrite Hclamp.
    reflexivity. }
  split; [exact Hin|]. split; [exact Heq|].
  rewrite Heq. apply MU_XY_in_range; assumption.
Qed.

Lemma MU_XY_clamps_witness :
  let cfg := mkPanel 8 8 true 270 false true in
  let cx := Z.min (to_u8 300) (MATRIX_WIDTH cfg - 1) in
  let cy := Z.min (to_u8 9) (MATRIX_HEIGHT cfg - 1) in
  in_panel cfg (cx, cy) /\
  MU_XY cfg 300 9 = MU_XY cfg cx cy /\
  0 <= MU_XY cfg 300 9 < MATRIX_WIDTH cfg * MATRIX_HEIGHT cfg.
Proof.
  apply (MU_XY_clamps (mkPanel 8 8 true 270 false true) 300 9).
  unfold panel_ok; simpl. repeat split; lia.
Defined.




(** *** The frame export *)

Lemma frame_record_length c : length (frame_record c) = 7%nat.
Proof. reflexivity. Qed.

(** In a concatenation of blocks of one width, block [k] sits at offset
    [k * w]. *)
Lemma flat_map_block {A B : Type} (f : A -> list B) (w : nat) :
  (forall a, length (f a) = w) ->
  forall (l : list A) (k : nat) (a : A),
    l !! k = Some a -> take w (drop (k * w) (flat_map f l)) = f a.
Proof.
  intros Hw l. induction l as [|a0 l IH]; intros k a Hk; [discriminate|].
  cbn [flat_map]. destruct k as [|k].
  - injection Hk as ->. cbn [Nat.mul drop]. apply take_app_length'.
    symmetry. apply Hw.
  - cbn [Nat.mul]. rewrite drop_app_add' by (symmetry; apply Hw).
    apply IH. exact Hk.
Qed.

Lemma flat_map_block_length {A B : Type} (f : A -> list B) (w : nat) :
  (forall a, length (f a) = w) ->
  forall l : list A, length (flat_map f l) = (length l * w)%nat.
Proof.
  intros Hw l. induction l as [|a0 l IH]; [reflexivity|].
  cbn [flat_map length Nat.mul]. rewrite length_app, IH, Hw. reflexivity.
Qed.

Lemma lookup_map_seq {B : Type} (f : nat -> B) (n i : nat) :
  (i < n)%nat -> map f (seq 0 n) !! i = Some (f i).
Proof.
  intros Hi.
  assert (Hmap : forall (l : list nat) k, map f l !! k = f <$> (l !! k)).
  { intros l. induction l as [|a l IH]; intros [|k]; try reflexivity.
    cbn [map]. apply IH. }
  rewrite Hmap, lookup_seq_lt by exact Hi. reflexivity.
Qed.

Lemma scan_length cfg :
  length (scan cfg)
  = (Z.to_nat (MATRIX_HEIGHT cfg) * Z.to_nat (MATRIX_WIDTH cfg))%nat.
Proof.
  unfold scan.
  rewrite (flat_map_block_length _ (Z.to_nat (MATRIX_WIDTH cfg)))
    by (intros y; rewrite length_map, length_seq; reflexivity).
  rewrite length_seq. reflexivity.
Qed.

(** The cell [(x, y)] is visited at position [y * W + x]. *)
Lemma scan_lookup cfg (x y : nat) :
  (x < Z.to_nat (MATRIX_WIDTH cfg))%nat ->
  (y < Z.to_nat (MATRIX_HEIGHT cfg))%nat ->
  scan cfg !! (y * Z.to_nat (MATRIX_WIDTH cfg) + x)%nat
  = Some (Z.of_nat x, Z.of_nat y).
Proof.
  intros Hx Hy. unfold scan.
  set (w := Z.to_nat (MATRIX_WIDTH cfg)) in *.
  set (rowf := fun y0 : nat => map (fun x0 => (Z.of_nat x0, Z.of_nat y0)) (seq 0 w)).
  assert (Hblock : take w (drop (y * w) (flat_map rowf (seq 0 (Z.to_nat (MATRIX_HEIGHT cfg)))))
                   = rowf y).
  { apply flat_map_block.
    - intros y0. unfold rowf. rewrite length_map, length_seq. reflexivity.
    - apply lookup_seq_lt. exact Hy. }
  rewrite <- lookup_drop, <- (lookup_take_lt _ w) by exact Hx.
  rewrite Hblock. unfold rowf.
  apply (lookup_map_seq (fun x0 => (Z.of_nat x0, Z.of_nat y))). exact Hx.
Qed.

(** The position of a cell in the scan, from its integer coordinates. *)
Definition scan_pos (cfg : PanelConfig) (x y : Z) : nat :=
  (Z.to_nat y * Z.to_nat (MATRIX_WIDTH cfg) + Z.to_nat x)%nat.

Lemma frame_block cfg leds x y :
  in_panel cfg (x, y) ->
  take 7 (drop (6 + 7 * scan_pos cfg x y) (MU_SendFrameCSV cfg leds))
  = frame_record (leds !!! Z.to_nat (MU_XY cfg x y)).
Proof.
  intros [Hx Hy]; cbn [fst snd] in Hx, Hy. unfold MU_SendFrameCSV.
  assert (Hcell : scan cfg !! scan_pos cfg x y = Some (x, y)).
  { unfold scan_pos. rewrite scan_lookup by lia. rewrite !Z2Nat.id by lia.
    reflexivity. }
  pose proof (lookup_lt_Some _ _ _ Hcell) as Hlt.
  pose proof (flat_map_block_length (cell_record cfg leds) 7
                (fun xy => frame_record_length _) (scan cfg)) as Hlen.
  pose proof (flat_map_block (cell_record cfg leds) 7
                (fun xy => frame_record_length _) (scan cfg) _ _ Hcell) as Hblock.
  rewrite (drop_app_add' frame_tag _ 6) by reflexivity.
  rewrite drop_app_le by (rewrite Hlen; lia).
  rewrite take_app_le.
  - replace (7 * scan_pos cfg x y)%nat with (scan_pos cfg x y * 7)%nat by lia.
    rewrite Hblock. reflexivity.
  - rewrite length_drop, Hlen. lia.
Qed.

(** X13. The layout of an exported frame. The text [MU_SendFrameCSV]
    writes is ["FRAME:"], one record of seven characters per cell of the
    panel and a line end: [8 + 7 * W * H] characters in all; the record
    of the cell [(x, y)] starts at offset [6 + 7 * (y * W + x)] and gives
    the two hexadecimal digits of each channel of the pixel at
    [MU_XY(x, y)], then a comma. *)
Theorem MU_SendFrameCSV_layout (cfg : PanelConfig) (leds : list CRGB.t) (x y : Z) :
  in_panel cfg (x, y) ->
  let out := MU_SendFrameCSV cfg leds in
  let c := leds !!! Z.to_nat (MU_XY cfg x y) in
  take 6 out = frame_tag /\
  length out = (8 + 7 * Z.to_nat (MATRIX_WIDTH cfg * MATRIX_HEIGHT cfg))%nat /\
  take 7 (drop (6 + 7 * Z.to_nat (y * MATRIX_WIDTH cfg + x)) out)
  = hex2 (CRGB.r c) ++ hex2 (CRGB.g c) ++ hex2 (CRGB.b c) ++ [","%char].
Proof.
  intros Hp out c. split; [reflexivity|]. split.
  - unfold out, MU_SendFrameCSV. rewrite !length_app.
    rewrite (flat_map_block_length (cell_record cfg leds) 7
               (fun xy => frame_record_length _)).
    rewrite scan_length. cbn [frame_tag line_end length].
    destruct Hp as [Hx Hy]; cbn [fst snd] in Hx, Hy.
    rewrite Z2Nat.inj_mul by lia. lia.
  - pose proof (frame_block cfg leds x y Hp) as Hblock.
    destruct Hp as [Hx Hy]; cbn [fst snd] in Hx, Hy.
    replace (Z.to_nat (y * MATRIX_WIDTH cfg + x)) with (scan_pos cfg x y)
      by (unfold scan_pos; rewrite Z2Nat.inj_add by nia;
          rewrite Z2Nat.inj_mul by lia; reflexivity).
    exact Hblock.
Qed.

Lemma MU_SendFrameCSV_layout_witness :
  let cfg := mkPanel 8 8 true 0 false false in
  let leds := replicate 64 (CRGB.mk 255 0 171) in
  let out := MU_SendFrameCSV cfg leds in
  let c := leds !!! Z.to_nat (MU_XY cfg 0 1) in
  take 6 out = frame_tag /\
  length out = (8 + 7 * Z.to_nat (MATRIX_WIDTH cfg * MATRIX_HEIGHT cfg))%nat /\
  take 7 (drop (6 + 7 * Z.to_nat (1 * MATRIX_WIDTH cfg + 0)) out)
  = hex2 (CRGB.r c) ++ hex2 (CRGB.g c) ++ hex2 (CRGB.b c) ++ [","%char].
Proof.
  apply (MU_SendFrameCSV_layout (mkPanel 8 8 true 0 false false)
           (replicate 64 (CRGB.mk 255 0 171)) 0 1).
  unfold in_panel; simpl; lia.
Defined.

(** One record, as the serial port sees it. *)
Example frame_record_value :
  frame_record (CRGB.mk 255 0 171) = ["F"; "F"; "0"; "0"; "A"; "B"; ","]%char.
Proof. reflexivity. Qed.

(** Reading a digit back gives its value. *)
Lemma hex_value_digit n : 0 <= n < 16 -> hex_value (hex_digit n) = n.
Proof.
  intros Hn.
  assert (Hall : forallb (fun k => hex_value (hex_digit (Z.of_nat k)) =? Z.of_nat k)
                         (seq 0 16) = true) by reflexivity.
  rewrite forallb_forall in Hall.
  specialize (Hall (Z.to_nat n)). rewrite Z2Nat.id in Hall by lia.
  apply Z.eqb_eq. apply Hall. apply in_seq. lia.
Qed.

Lemma hex2_inj a b : 0 <= a < 256 -> 0 <= b < 256 -> hex2 a = hex2 b -> a = b.
Proof.
  intros Ha Hb Heq. unfold hex2 in Heq. injection Heq as Hhi Hlo.
  apply (f_equal hex_value) in Hhi, Hlo.
  rewrite !hex_value_digit in Hhi, Hlo
    by first [ apply Z.mod_pos_bound; lia
             | split; [apply Z.div_pos; lia | apply Z.div_lt_upper_bound; lia] ].
  rewrite (Z.div_mod a 16), (Z.div_mod b 16) by lia. rewrite Hhi, Hlo. reflexivity.
Qed.

Lemma frame_record_inj c1 c2 :
  byte_colour c1 -> byte_colour c2 -> frame_record c1 = frame_record c2 -> c1 = c2.
Proof.
  intros (Hr1 & Hg1 & Hb1) (Hr2 & Hg2 & Hb2) Heq.
  destruct c1 as [r1 g1 b1], c2 as [r2 g2 b2]; cbn [CRGB.r CRGB.g CRGB.b] in *.
  unfold frame_record in Heq; cbn [CRGB.r CRGB.g CRGB.b] in Heq.
  apply app_inj_1 in Heq as [Hr Heq]; [|reflexivity].
  apply app_inj_1 in Heq as [Hg Heq]; [|reflexivity].
  apply app_inj_1 in Heq as [Hb _]; [|reflexivity].
  apply hex2_inj in Hr, Hg, Hb; try assumption. congruence.
Qed.

(** X14. The export loses nothing. On a well-formed panel, two frame
    buffers of [W * H] pixels with [uint8_t] channels that
    [MU_SendFrameCSV] writes as the same text are the same buffer. *)
Theorem MU_SendFrameCSV_faithful (cfg : PanelConfig) (l1 l2 : list CRGB.t) :
  panel_ok cfg ->
  length l1 = Z.to_nat (MATRIX_WIDTH cfg * MATRIX_HEIGHT cfg) ->
  length l2 = Z.to_nat (MATRIX_WIDTH cfg * MATRIX_HEIGHT cfg) ->
  Forall byte_colour l1 -> Forall byte_colour l2 ->
  MU_SendFrameCSV cfg l1 = MU_SendFrameCSV cfg l2 ->
  l1 = l2.
Proof.
  intros Hok Hlen1 Hlen2 Hb1 Hb2 Heq.
  apply (list_eq_same_length _ _ (length l1)); [congruence | reflexivity|].
  intros i c1 c2 Hi H1 H2.
  destruct (MU_XY_onto cfg Hok (Z.of_nat i)) as (x & y & Hp & Hxy); [lia|].
  pose proof (frame_block cfg l1 x y Hp) as Hblock1.
  pose proof (frame_block cfg l2 x y Hp) as Hblock2.
  rewrite Heq, Hblock2, Hxy, Nat2Z.id in Hblock1.
  rewrite (list_lookup_total_correct _ _ _ H1) in Hblock1.
  rewrite (list_lookup_total_correct _ _ _ H2) in Hblock1.
  symmetry. apply frame_record_inj.
  - apply (proj1 (Forall_forall _ _) Hb2). apply list_elem_of_lookup. eauto.
  - apply (proj1 (Forall_forall _ _) Hb1). apply list_elem_of_lookup. eauto.
  - exact Hblock1.
Qed.

Lemma MU_SendFrameCSV_faithful_witness :
  replicate 4 (CRGB.mk 1 2 3) = [CRGB.mk 1 2 3; CRGB.mk 1 2 3; CRGB.mk 1 2 3; CRGB.mk 1 2 3].
Proof.
  apply (MU_SendFrameCSV_faithful (mkPanel 2 2 true 180 true false)).
  - unfold panel_ok; simpl. repeat split; lia.
  - reflexivity.
  - reflexivity.
  - repeat constructor; simpl; lia.
  - repeat constructor; simpl; lia.
  - reflexivity.
Defined.

End MatrixUtilMoreTheorems.

(** ** Falling stars: the pool, the grid and the frame *)

Module FallingStarsMoreTheorems.
Import Machine MachineFacts MatrixUtil FallingStars FallingStarsMore.
Import MatrixUtilMoreFacts.

(** *** [spawnParticle] *)

Lemma spawn_from_all_active cfg count : forall i g st,
  (forall j, (i <= j < i + count)%nat ->
             Particle.active (particles st !!! j) = true) ->
  spawn_from cfg i count g st = (st, g).
Proof.
  induction count as [|c IH]; intros i g st Hall; [reflexivity|].
  cbn [spawn_from]. rewrite (Hall i) by lia. cbn [negb].
  apply IH. intros j Hj. apply Hall. lia.
Qed.

(** X15. A full pool drops the spawn: if all twelve slots are active,
    [spawnParticle] changes nothing and draws no random value. *)
Theorem spawnParticle_pool_full (cfg : PanelConfig) (g : Rng.t) (st : Sim) :
  (forall j, (j < MAX_PARTICLES)%nat ->
             Particle.active (particles st !!! j) = true) ->
  spawnParticle cfg g st = (st, g).
Proof.
  intros Hall. unfold spawnParticle. apply spawn_from_all_active.
  intros j Hj. apply Hall. lia.
Qed.

Lemma spawnParticle_pool_full_witness :
  let st := mkSim (replicate 12 (Particle.mk (Fp.of_int 1) (Fp.of_int 0)
                                             (Fp.of_int 0) CRGB.Black true))
                  (grid boot) (leds boot) in
  spawnParticle board8 respawn_draws st = (st, respawn_draws).
Proof.
  apply (spawnParticle_pool_full board8 respawn_draws).
  intros j Hj. cbn [particles].
  rewrite lookup_total_replicate_2 by (unfold MAX_PARTICLES in Hj; lia).
  reflexivity.
Defined.

Lemma random_draw hi g :
  0 < hi ->
  Rng.random 0 hi g =
    (Rng.draws g (Rng.pos g) mod hi, Rng.mk (Rng.draws g) (S (Rng.pos g))).
Proof.
  intros Hhi. unfold Rng.random.
  destruct (hi <=? 0) eqn:E; [lia|].
  rewrite Z.sub_0_r, Z.add_0_l. reflexivity.
Qed.

Lemma spawn_from_first_free cfg count : forall i g st k,
  0 < MATRIX_WIDTH cfg ->
  (i <= k < i + count)%nat ->
  (forall j, (i <= j < k)%nat -> Particle.active (particles st !!! j) = true) ->
  Particle.active (particles st !!! k) = false ->
  spawn_from cfg i count g st =
    (mkSim (<[k := Particle.mk
                     (Fp.of_int (Rng.draws g (Rng.pos g) mod MATRIX_WIDTH cfg))
                     (Fp.of_int 0) (Fp.of_int 0)
                     (palette (Rng.draws g (S (Rng.pos g)) mod 6)
                              (Particle.color (particles st !!! k)))
                     true]> (particles st))
           (grid st) (leds st),
     Rng.mk (Rng.draws g) (S (S (Rng.pos g)))).
Proof.
  induction count as [|c IH]; intros i g st k HW Hk Hbefore Hfree; [lia|].
  cbn [spawn_from]. destruct (decide (k = i)) as [->|Hne].
  - rewrite Hfree. cbn [negb].
    rewrite (random_draw (MATRIX_WIDTH cfg)) by exact HW.
    rewrite (random_draw 6) by lia. cbn [Rng.draws Rng.pos].
    rewrite to_u8_small; [reflexivity|].
    pose proof (Z.mod_pos_bound (Rng.draws g (S (Rng.pos g))) 6). lia.
  - rewrite (Hbefore i) by lia. cbn [negb].
    apply IH; [exact HW | lia | intros j Hj; apply Hbefore; lia | exact Hfree].
Qed.

Lemma palette_vibrant c old : 0 <= c < 6 -> palette c old ∈ vibrant.
Proof.
  intros Hc.
  assert (Hcases : c = 0 \/ c = 1 \/ c = 2 \/ c = 3 \/ c = 4 \/ c = 5) by lia.
  unfold vibrant.
  destruct Hcases as [-> | [-> | [-> | [-> | [-> | -> ]]]]]; cbn [palette];
    repeat (first [apply list_elem_of_here | apply list_elem_of_further]).
Qed.

(** X16. A spawn fills the first inactive slot and nothing else. If slot
    [k] is the first inactive one, [spawnParticle] overwrites that slot
    with an active particle at row 0 with no velocity, in a column of
    [0, W) and in one of the six colours, leaves every other slot, the
    grid and the frame as they were, and draws exactly two values. *)
Theorem spawnParticle_first_free (cfg : PanelConfig) (g : Rng.t) (st : Sim) (k : nat) :
  0 < MATRIX_WIDTH cfg ->
  (k < MAX_PARTICLES)%nat ->
  (forall j, (j < k)%nat -> Particle.active (particles st !!! j) = true) ->
  Particle.active (particles st !!! k) = false ->
  let col := Rng.draws g (Rng.pos g) mod MATRIX_WIDTH cfg in
  let colour := palette (Rng.draws g (S (Rng.pos g)) mod 6)
                        (Particle.color (particles st !!! k)) in
  spawnParticle cfg g st =
    (mkSim (<[k := Particle.mk (Fp.of_int col) (Fp.of_int 0) (Fp.of_int 0)
                               colour true]> (particles st))
           (grid st) (leds st),
     Rng.mk (Rng.draws g) (S (S (Rng.pos g)))) /\
  0 <= col < MATRIX_WIDTH cfg /\
  colour ∈ vibrant.
Proof.
  intros HW Hk Hbefore Hfree col colour. split; [|split].
  - unfold spawnParticle. apply spawn_from_first_free;
      [exact HW | lia | intros j Hj; apply Hbefore; lia | exact Hfree].
  - apply Z.mod_pos_bound. exact HW.
  - apply palette_vibrant. apply Z.mod_pos_bound. lia.
Qed.

Lemma spawnParticle_first_free_witness :
  let col := Rng.draws respawn_draws (Rng.pos respawn_draws) mod MATRIX_WIDTH board8 in
  let colour := palette (Rng.draws respawn_draws (S (Rng.pos respawn_draws)) mod 6)
                        (Particle.color (particles boot !!! 0%nat)) in
  spawnParticle board8 respawn_draws boot =
    (mkSim (<[0%nat := Particle.mk (Fp.of_int col) (Fp.of_int 0) (Fp.of_int 0)
                                   colour true]> (particles boot))
           (grid boot) (leds boot),
     Rng.mk (Rng.draws respawn_draws) (S (S (Rng.pos respawn_draws)))) /\
  0 <= col < MATRIX_WIDTH board8 /\
  colour ∈ vibrant.
Proof.
  apply (spawnParticle_first_free board8 respawn_draws boot 0).
  - simpl; lia.
  - unfold MAX_PARTICLES; lia.
  - intros j Hj. lia.
  - reflexivity.
Defined.

(** *** The grid *)

(** A write to the grid changes the cell read, or nothing the read sees. *)
Lemma grid_get_set_cases (gr : list (list Z)) (x' y' v x y : Z) :
  grid_get (grid_set gr x' y' v) x y = v \/
  grid_get (grid_set gr x' y' v) x y = grid_get gr x y.
Proof.
  unfold grid_get, grid_set.
  rewrite list_lookup_total_insert.
  destruct (decide (Z.to_nat x' = Z.to_nat x /\ (Z.to_nat x' < length gr)%nat))
    as [[Hx Hlt]|Hno]; [|right; reflexivity].
  rewrite list_lookup_total_insert.
  destruct (decide (Z.to_nat y' = Z.to_nat y
                    /\ (Z.to_nat y' < length (gr !!! Z.to_nat x'))%nat))
    as [[Hy Hlt']|Hno]; [left; reflexivity|].
  right. rewrite Hx. reflexivity.
Qed.

Lemma spawn_from_grid cfg count : forall i g st,
  grid (fst (spawn_from cfg i count g st)) = grid st.
Proof.
  induction count as [|c IH]; intros i g st; [reflexivity|].
  cbn [spawn_from]. destruct (negb (Particle.active (particles st !!! i))).
  - destruct (Rng.random 0 (MATRIX_WIDTH cfg) g) as [rx g1].
    destruct (Rng.random 0 6 g1) as [rc g2]. reflexivity.
  - apply IH.
Qed.

(** What one physics round does to the grid: nothing, or one write of
    the slot's id. *)
Lemma update_particle_grid cfg i st :
  grid (update_particle cfg i st) = grid st \/
  exists x y, grid (update_particle cfg i st)
              = grid_set (grid st) x y (to_u8 (Z.of_nat i + 1)).
Proof.
  unfold update_particle.
  destruct (Particle.active (particles st !!! i)); [|left; reflexivity].
  match goal with |- context [if ?c then _ else _] => destruct c end;
    [right; eexists _, _; reflexivity|].
  match goal with |- context [if ?c then _ else _] => destruct c end;
    [|left; reflexivity].
  match goal with |- context [if ?c then _ else _] => destruct c end;
    [right; eexists _, _; reflexivity | left; reflexivity].
Qed.

Lemma physics_from_keeps_occupied cfg x y (slots : list nat) : forall st,
  Forall (fun i => (i < MAX_PARTICLES)%nat) slots ->
  grid_get (grid st) x y <> 0 ->
  grid_get (grid (fold_left (fun s i => update_particle cfg i s) slots st)) x y <> 0.
Proof.
  induction slots as [|i slots IH]; intros st Hslots Hocc; [exact Hocc|].
  cbn [fold_left]. inversion Hslots as [|? ? Hi Hrest]; subst.
  apply IH; [exact Hrest|].
  destruct (update_particle_grid cfg i st) as [-> | (x' & y' & ->)]; [exact Hocc|].
  destruct (grid_get_set_cases (grid st) x' y' (to_u8 (Z.of_nat i + 1)) x y)
    as [-> | ->]; [|exact Hocc].
  unfold MAX_PARTICLES in Hi. rewrite to_u8_small by lia. lia.
Qed.

Lemma render_keeps cfg st :
  grid (render cfg st) = grid st /\ particles (render cfg st) = particles st.
Proof. unfold render. split; reflexivity. Qed.

Lemma loop_grid_occupied cfg g st x y :
  grid_get (grid st) x y <> 0 ->
  grid_get (grid (fst (loop cfg g st))) x y <> 0.
Proof.
  intros Hocc. unfold loop.
  destruct (Rng.random 0 100 g) as [roll g1].
  assert (Hspawn : forall st1 g2,
            (if roll <? 30 then spawnParticle cfg g1 st else (st, g1)) = (st1, g2) ->
            grid st1 = grid st).
  { intros st1 g2 Heq. destruct (roll <? 30).
    - pose proof (spawn_from_grid cfg MAX_PARTICLES 0 g1 st) as Hg.
      unfold spawnParticle in Heq. rewrite Heq in Hg. exact Hg.
    - injection Heq as <- _. reflexivity. }
  destruct (if roll <? 30 then spawnParticle cfg g1 st else (st, g1))
    as [st1 g2] eqn:Heq.
  cbn [fst]. rewrite (proj1 (render_keeps cfg (physics cfg st1))).
  unfold physics. apply physics_from_keeps_occupied.
  - apply Forall_forall. intros i Hi. apply list_elem_of_In, in_seq in Hi. lia.
  - rewrite (Hspawn st1 g2 eq_refl). exact Hocc.
Qed.

(** X17. The settled grid is never cleared. A cell that is occupied
    stays occupied through any number of calls of [loop], whatever the
    generator yields: spawns and rendering leave the grid alone and a
    settlement writes a slot id between 1 and 12. *)
Theorem run_keeps_cells_occupied (cfg : PanelConfig) (n : nat) :
  forall (g : Rng.t) (st : Sim) (x y : Z),
  grid_get (grid st) x y <> 0 ->
  grid_get (grid (fst (run cfg n g st))) x y <> 0.
Proof.
  induction n as [|n IH]; intros g st x y Hocc; [exact Hocc|].
  cbn [run]. pose proof (loop_grid_occupied cfg g st x y Hocc) as Hstep.
  destruct (loop cfg g st) as [st1 g1]. apply IH. exact Hstep.
Qed.

Lemma run_keeps_cells_occupied_witness :
  grid_get (grid (fst (run board8 20 stack_draws
                         (fst (run board8 7 stack_draws boot))))) 3 7 <> 0.
Proof.
  apply (run_keeps_cells_occupied board8 20 stack_draws
           (fst (run board8 7 stack_draws boot)) 3 7).
  vm_compute. discriminate.
Defined.

(** *** The pool under physics *)

Lemma update_particle_other cfg i st k :
  k <> i -> particles (update_particle cfg i st) !!! k = particles st !!! k.
Proof.
  intros Hne. unfold update_particle.
  destruct (Particle.active (particles st !!! i)); [|reflexivity].
  repeat match goal with |- context [if ?c then _ else _] => destruct c end;
    cbn [particles]; apply list_lookup_total_insert_ne; congruence.
Qed.

Lemma update_particle_inactive cfg i st :
  Particle.active (particles st !!! i) = false -> update_particle cfg i st = st.
Proof. intros Hoff. unfold update_particle. rewrite Hoff. reflexivity. Qed.

Lemma physics_from_inactive cfg k (slots : list nat) : forall st,
  Particle.active (particles st !!! k) = false ->
  particles (fold_left (fun s i => update_particle cfg i s) slots st) !!! k
  = particles st !!! k.
Proof.
  induction slots as [|i slots IH]; intros st Hoff; [reflexivity|].
  cbn [fold_left].
  assert (Hsame : particles (update_particle cfg i st) !!! k = particles st !!! k).
  { destruct (decide (k = i)) as [->|Hne].
    - rewrite update_particle_inactive by exact Hoff. reflexivity.
    - apply update_particle_other. exact Hne. }
  rewrite IH by (rewrite Hsame; exact Hoff). exact Hsame.
Qed.

(** X18. Physics touches active particles only: a slot that is inactive
    when the physics loop starts holds the same particle -- position,
    velocity, colour, still inactive -- when it ends. A settled particle
    keeps its data until a spawn reuses the slot, and physics never
    activates a slot. *)
Theorem physics_leaves_inactive (cfg : PanelConfig) (st : Sim) (k : nat) :
  Particle.active (particles st !!! k) = false ->
  particles (physics cfg st) !!! k = particles st !!! k.
Proof. intros Hoff. unfold physics. apply physics_from_inactive. exact Hoff. Qed.

Lemma physics_leaves_inactive_witness :
  particles (physics board8 (fst (run board8 7 respawn_draws boot))) !!! 0%nat
  = particles (fst (run board8 7 respawn_draws boot)) !!! 0%nat.
Proof.
  apply (physics_leaves_inactive board8 (fst (run board8 7 respawn_draws boot)) 0).
  vm_compute. reflexivity.
Defined.

(** *** The column of a particle *)

(** A column number survives the trip through [float] and back. *)
Lemma to_int_of_int c : 0 <= c < 256 -> Fp.to_int (Fp.of_int c) = c.
Proof.
  intros Hc.
  assert (Hall : forallb (fun n => Fp.to_int (Fp.of_int (Z.of_nat n)) =? Z.of_nat n)
                         (seq 0 256) = true) by (vm_compute; reflexivity).
  rewrite forallb_forall in Hall.
  specialize (Hall (Z.to_nat c)). rewrite Z2Nat.id in Hall by lia.
  apply Z.eqb_eq. apply Hall. apply in_seq. lia.
Qed.

Lemma Forall_insert_at {A : Type} `{Inhabited A} (P : A -> Prop) (l : list A) i a :
  Forall P l -> ((i < length l)%nat -> P (l !!! i) -> P a) -> Forall P (<[i := a]> l).
Proof.
  intros Hall Hnew. destruct (decide (i < length l)%nat) as [Hlt|Hge].
  - apply Forall_insert; [exact Hall|]. apply Hnew; [exact Hlt|].
    apply Forall_lookup_total_1; assumption.
  - rewrite list_insert_ge by lia. exact Hall.
Qed.

Lemma spawn_from_columns cfg count : forall i g st,
  0 < MATRIX_WIDTH cfg <= 256 ->
  columns_ok cfg st -> columns_ok cfg (fst (spawn_from cfg i count g st)).
Proof.
  induction count as [|c IH]; intros i g st HW Hcols; [exact Hcols|].
  cbn [spawn_from]. destruct (negb (Particle.active (particles st !!! i))).
  - pose proof (random_range 0 (MATRIX_WIDTH cfg) g ltac:(lia)) as Hr.
    destruct (Rng.random 0 (MATRIX_WIDTH cfg) g) as [rx g1]. cbn [fst] in Hr.
    destruct (Rng.random 0 6 g1) as [rc g2]. cbn [fst].
    unfold columns_ok. cbn [particles].
    apply Forall_insert; [exact Hcols|]. intros _. cbn [Particle.x].
    rewrite to_int_of_int by lia. exact Hr.
  - apply IH; assumption.
Qed.

Lemma update_particle_columns cfg i st :
  columns_ok cfg st -> columns_ok cfg (update_particle cfg i st).
Proof.
  intros Hcols. unfold update_particle.
  destruct (Particle.active (particles st !!! i)) eqn:Hact; [|exact Hcols].
  repeat match goal with |- context [if ?c then _ else _] => destruct c end;
    unfold columns_ok; cbn [particles];
    (apply Forall_insert_at; [exact Hcols|]);
    intros _ Hp; cbn [Particle.active Particle.x]; intros _; apply Hp; exact Hact.
Qed.

Lemma physics_columns cfg (slots : list nat) : forall st,
  columns_ok cfg st ->
  columns_ok cfg (fold_left (fun s i => update_particle cfg i s) slots st).
Proof.
  induction slots as [|i slots IH]; intros st Hcols; [exact Hcols|].
  cbn [fold_left]. apply IH. apply update_particle_columns. exact Hcols.
Qed.

Lemma loop_columns cfg g st :
  0 < MATRIX_WIDTH cfg <= 256 ->
  columns_ok cfg st -> columns_ok cfg (fst (loop cfg g st)).
Proof.
  intros HW Hcols. unfold loop.
  destruct (Rng.random 0 100 g) as [roll g1].
  assert (Hspawn : columns_ok cfg
            (fst (if roll <? 30 then spawnParticle cfg g1 st else (st, g1)))).
  { destruct (roll <? 30); [|exact Hcols].
    unfold spawnParticle. apply spawn_from_columns; assumption. }
  destruct (if roll <? 30 then spawnParticle cfg g1 st else (st, g1)) as [st1 g2].
  cbn [fst] in *. unfold columns_ok.
  rewrite (proj2 (render_keeps cfg (physics cfg st1))).
  unfold physics. apply physics_columns. exact Hspawn.
Qed.

(** X19. The column index stays inside the grid. On a panel at most 256
    cells wide, [setup] leaves no active particle, and from any state in
    which every active particle has its integer column in [0, W), every
    number of calls of [loop] leads to such a state: a spawn picks a
    column of [0, W) and physics never changes [x]. *)
Theorem run_keeps_columns (cfg : PanelConfig) :
  0 < MATRIX_WIDTH cfg <= 256 ->
  (forall st0, columns_ok cfg (setup cfg st0)) /\
  (forall n g st, columns_ok cfg st -> columns_ok cfg (fst (run cfg n g st))).
Proof.
  intros HW. split.
  - intros st0. unfold columns_ok, setup. cbn [particles].
    apply Forall_map. apply Forall_forall. intros p _. cbn [Particle.active].
    discriminate.
  - intros n. induction n as [|n IH]; intros g st Hcols; [exact Hcols|].
    cbn [run]. pose proof (loop_columns cfg g st HW Hcols) as Hstep.
    destruct (loop cfg g st) as [st1 g1]. apply IH. exact Hstep.
Qed.

Lemma run_keeps_columns_witness :
  (forall st0, columns_ok board8 (setup board8 st0)) /\
  (forall n g st, columns_ok board8 st -> columns_ok board8 (fst (run board8 n g st))).
Proof.
  apply (run_keeps_columns board8). simpl; lia.
Defined.

(** *** The frame *)

Lemma cells_in_panel cfg c : In c (cells cfg) -> in_panel cfg c.
Proof.
  unfold cells. rewrite in_flat_map. intros (x & Hx & Hc).
  apply in_map_iff in Hc as (y & <- & Hy).
  apply in_seq in Hx, Hy. unfold in_panel; cbn [fst snd]. lia.
Qed.

Lemma in_cells cfg x y : in_panel cfg (x, y) -> In (x, y) (cells cfg).
Proof.
  intros [Hx Hy]; cbn [fst snd] in Hx, Hy. unfold cells.
  apply in_flat_map. exists (Z.to_nat x). split; [apply in_seq; lia|].
  apply in_map_iff. exists (Z.to_nat y). split; [|apply in_seq; lia].
  rewrite !Z2Nat.id by lia. reflexivity.
Qed.

Lemma draw_cell_length cfg st fb c : length (draw_cell cfg st fb c) = length fb.
Proof.
  unfold draw_cell. destruct c as [x y].
  destruct (negb (grid_get (grid st) x y =? 0)); [apply length_insert | reflexivity].
Qed.

Lemma draw_falling_length cfg st fb i : length (draw_falling cfg st fb i) = length fb.
Proof.
  unfold draw_falling.
  repeat match goal with |- context [if ?c then _ else _] => destruct c end;
    try reflexivity; apply length_insert.
Qed.

Section Render.
Variable cfg : PanelConfig.
Hypothesis Hok : panel_ok cfg.
Variable st : Sim.
Variables x y : Z.
Hypothesis Hxy : in_panel cfg (x, y).

Local Abbreviation k := (Z.to_nat (MU_XY cfg x y)).

Lemma other_cell_other_pixel c :
  in_panel cfg c -> c <> (x, y) -> Z.to_nat (MU_XY cfg (fst c) (snd c)) <> k.
Proof.
  destruct c as [x' y']. cbn [fst snd]. intros Hc Hne Heq. apply Hne.
  apply (MU_XY_one_to_one cfg Hok); [exact Hc | exact Hxy|].
  pose proof (MU_XY_in_range cfg Hok x' y' Hc).
  pose proof (MU_XY_in_range cfg Hok x y Hxy). lia.
Qed.

(** The settled pass over an occupied cell. *)
Lemma draw_cells_hit (cs : list (Z * Z)) : forall fb,
  grid_get (grid st) x y <> 0 ->
  (forall c, In c cs -> in_panel cfg c) ->
  (k < length fb)%nat ->
  fb !!! k = Particle.color (owner st x y) \/ In (x, y) cs ->
  fold_left (draw_cell cfg st) cs fb !!! k = Particle.color (owner st x y).
Proof.
  induction cs as [|c cs IH]; intros fb Hocc Hin Hk Hcase.
  - destruct Hcase as [Hfb|[]]. exact Hfb.
  - cbn [fold_left]. apply IH.
    + exact Hocc.
    + intros c' Hc'. apply Hin. right. exact Hc'.
    + rewrite draw_cell_length. exact Hk.
    + destruct (decide (c = (x, y))) as [->|Hne].
      * left. unfold draw_cell.
        assert (E : (grid_get (grid st) x y =? 0) = false) by lia.
        rewrite E. cbn [negb].
        apply list_lookup_total_insert_eq. exact Hk.
      * destruct Hcase as [Hfb|[Heq|Hrest]]; [|congruence|right; exact Hrest].
        left. unfold draw_cell. destruct c as [x' y'].
        destruct (negb (grid_get (grid st) x' y' =? 0)); [|exact Hfb].
        rewrite list_lookup_total_insert_ne; [exact Hfb|].
        apply (other_cell_other_pixel (x', y')); [|exact Hne].
        apply Hin. left. reflexivity.
Qed.

(** The settled pass over an empty cell. *)
Lemma draw_cells_miss (cs : list (Z * Z)) : forall fb,
  grid_get (grid st) x y = 0 ->
  (forall c, In c cs -> in_panel cfg c) ->
  fold_left (draw_cell cfg st) cs fb !!! k = fb !!! k.
Proof.
  induction cs as [|c cs IH]; intros fb Hfree Hin; [reflexivity|].
  cbn [fold_left]. rewrite IH by (try exact Hfree; intros c' Hc'; apply Hin; right; exact Hc').
  unfold draw_cell. destruct c as [x' y'].
  destruct (negb (grid_get (grid st) x' y' =? 0)) eqn:E; [|reflexivity].
  apply list_lookup_total_insert_ne.
  apply (other_cell_other_pixel (x', y')); [apply Hin; left; reflexivity|].
  intros [= -> ->]. rewrite Hfree in E. discriminate E.
Qed.

(** The falling pass leaves the pixel alone when no active particle is
    over the cell. *)
Lemma draw_falling_miss (slots : list nat) : forall fb,
  no_faller_at st x y ->
  Forall (fun i => (i < MAX_PARTICLES)%nat) slots ->
  fold_left (draw_falling cfg st) slots fb !!! k = fb !!! k.
Proof.
  induction slots as [|i slots IH]; intros fb Hnone Hslots; [reflexivity|].
  inversion Hslots as [|? ? Hi Hrest]; subst.
  cbn [fold_left]. rewrite IH by assumption.
  unfold draw_falling.
  destruct (Particle.active (particles st !!! i)) eqn:Hact; [|reflexivity].
  match goal with |- context [if ?c then _ else _] => destruct c eqn:Hin end;
    [|reflexivity].
  apply list_lookup_total_insert_ne.
  apply (other_cell_other_pixel
           (Fp.to_int (Particle.x (particles st !!! i)),
            Fp.to_int (Particle.y (particles st !!! i)))).
  - unfold in_panel; cbn [fst snd].
    apply andb_true_iff in Hin as [Hin H4]. apply andb_true_iff in Hin as [Hin H3].
    apply andb_true_iff in Hin as [H1 H2]. lia.
  - apply Hnone; assumption.
Qed.

End Render.

(** X20. What [render] puts on a cell no particle is falling through.
    On a well-formed panel, for a cell of the panel with no active
    particle over it, the pixel [MU_XY(x, y)] of the rendered frame is
    black when the grid cell is empty and otherwise the colour now stored
    in the slot the grid cell names. *)
Theorem render_settled_cell (cfg : PanelConfig) (st : Sim) (x y : Z) :
  panel_ok cfg -> in_panel cfg (x, y) -> no_faller_at st x y ->
  cell_color cfg (render cfg st) x y =
    if grid_get (grid st) x y =? 0 then CRGB.Black
    else Particle.color (owner st x y).
Proof.
  intros Hok Hxy Hnone. unfold cell_color, render. cbn [leds].
  assert (Hk : (Z.to_nat (MU_XY cfg x y) < Z.to_nat (NUM_LEDS cfg))%nat).
  { pose proof (MU_XY_in_range cfg Hok x y Hxy). unfold NUM_LEDS. lia. }
  rewrite (draw_falling_miss cfg Hok st x y Hxy).
  - destruct (grid_get (grid st) x y =? 0) eqn:E.
    + rewrite (draw_cells_miss cfg Hok st x y Hxy);
        [|lia|intros c Hc; apply cells_in_panel; exact Hc].
      apply lookup_total_replicate_2. exact Hk.
    + apply (draw_cells_hit cfg Hok st x y Hxy).
      * lia.
      * intros c Hc. apply cells_in_panel. exact Hc.
      * rewrite length_replicate. exact Hk.
      * right. apply in_cells. exact Hxy.
  - exact Hnone.
  - apply Forall_forall. intros i Hi. apply list_elem_of_In, in_seq in Hi. lia.
Qed.

Lemma render_settled_cell_witness :
  cell_color board8 (render board8 (fst (run board8 7 respawn_draws boot))) 3 7 =
    if grid_get (grid (fst (run board8 7 respawn_draws boot))) 3 7 =? 0
    then CRGB.Black
    else Particle.color (owner (fst (run board8 7 respawn_draws boot)) 3 7).
Proof.
  apply (render_settled_cell board8 (fst (run board8 7 respawn_draws boot)) 3 7).
  - unfold panel_ok; simpl. repeat split; lia.
  - unfold in_panel; simpl; lia.
  - intros i Hi Hact. exfalso. revert Hact.
    unfold MAX_PARTICLES in Hi.
    do 12 (destruct i as [|i]; [vm_compute; discriminate|]). lia.
Defined.

End FallingStarsMoreTheorems.

(** ** The snake game: the length, and malformed directions *)

Module SnakeMoveTheorems.
Import Machine MachineFacts Snake SnakeMore SnakeFacts FoodFacts MoveFacts MoveCases.
Import SnakeMoreFacts SnakeTheorems.

Lemma wf_sizes s :
  wf s -> length (snake s) = 64%nat /\ 0 <= snakeLength s <= 64.
Proof. intros [Harr Hlen]. unfold MAX_SNAKE_LENGTH in *. split; [exact Harr | lia]. Qed.

(** Past the guards with the head on the food, the call eats: it
    returns 2 whenever it returns. *)
Lemma MoveSnake_eats fuel g d s r s' g' :
  gameOver s = false -> clear_of_body d s -> new_head d s = food s ->
  MoveSnake fuel g d s = Some (r, s', g') -> r = 2.
Proof.
  intros Hover Hclear Hfood Hrun.
  rewrite MoveSnake_past_guards in Hrun by assumption.
  assert (Heq : Point.eqb (new_head d s) (food s) = true)
    by (apply point_eqb_eq; exact Hfood).
  rewrite Heq in Hrun. cbn [negb] in Hrun.
  destruct (snakeLength s <? MAX_SNAKE_LENGTH).
  - destruct (GenerateFood fuel g (grow s)) as [[s2 g2]|]; [|discriminate].
    injection Hrun as Hr _ _. congruence.
  - injection Hrun as Hr _ _. congruence.
Qed.

(** C6. While the game runs, [MoveSnake] keeps the length, except when it
    eats (result 2) below capacity, where the length grows by exactly
    one. It eats exactly when the new head passes both guards and is on
    the food: then, under every fair generator and given enough fuel, the
    call returns 2 with the length one more (or unchanged when the array
    is full); in every other case the length is as before. This holds
    for every direction code, the four valid ones included. *)
Theorem MoveSnake_length (d : Z) (s : Game) :
  wf s -> gameOver s = false ->
  (exists g, fair g s) /\
  (forall g, fair g s -> exists fuel, is_Some (MoveSnake fuel g d s)) /\
  (forall fuel g r s' g',
      MoveSnake fuel g d s = Some (r, s', g') ->
      GetSnakeLength s' =
        (if (r =? 2) && (snakeLength s <? MAX_SNAKE_LENGTH)
         then GetSnakeLength s + 1 else GetSnakeLength s) /\
      (r = 2 -> new_head d s = food s) /\
      (r = 2 <-> clear_of_body d s /\ new_head d s = food s)) /\
  (clear_of_body d s -> new_head d s = food s ->
   forall g, fair g s ->
   exists fuel s' g',
     MoveSnake fuel g d s = Some (2, s', g') /\
     GetSnakeLength s' =
       (if snakeLength s <? MAX_SNAKE_LENGTH
        then GetSnakeLength s + 1 else GetSnakeLength s)).
Proof.
  intros Hwf Hover.
  assert (Hlen : forall fuel g r s' g',
            MoveSnake fuel g d s = Some (r, s', g') ->
            GetSnakeLength s' =
              (if (r =? 2) && (snakeLength s <? MAX_SNAKE_LENGTH)
               then GetSnakeLength s + 1 else GetSnakeLength s) /\
            (r = 2 -> new_head d s = food s)).
  { intros fuel g r s' g' Hrun. apply MoveSnake_cases in Hrun.
    unfold GetSnakeLength.
    destruct Hrun as [Hov|Hov Hl Hrev|Hov Hhit|Hov Hfood
                     |f Hov Hfood Hcap Hon Hfree|Hov Hfood Hcap];
      cbn [snakeLength set_snake set_gameOver andb Z.eqb Pos.eqb];
      try (split; [reflexivity | intros; congruence || lia]).
    - rewrite grow_length by assumption.
      assert (Hlt : (snakeLength s <? MAX_SNAKE_LENGTH) = true) by lia.
      rewrite Hlt. split; [reflexivity | intros _; exact Hfood].
    - assert (Hlt : (snakeLength s <? MAX_SNAKE_LENGTH) = false) by lia.
      rewrite Hlt. split; [reflexivity | intros _; exact Hfood]. }
  split; [apply fair_exists; exact Hwf|].
  split; [intros g; apply MoveSnake_returns|].
  split.
  - intros fuel g r s' g' Hrun.
    destruct (Hlen _ _ _ _ _ Hrun) as [Hl Hfood].
    split; [exact Hl|]. split; [exact Hfood|]. split.
    + intros Hr. split; [|apply Hfood; exact Hr].
      destruct (MoveSnake_guards _ _ _ _ _ _ _ Hover Hrun)
        as [(_ & _ & Hr1 & _) | [(_ & _ & Hr0 & _) | [Hclear _]]];
        [lia | lia | exact Hclear].
    + intros [Hclear Heq]. exact (MoveSnake_eats _ _ _ _ _ _ _ Hover Hclear Heq Hrun).
  - intros Hclear Heq g Hfair.
    destruct (MoveSnake_returns g d s Hfair) as [fuel [[[r s'] g'] Hrun]].
    pose proof (MoveSnake_eats _ _ _ _ _ _ _ Hover Hclear Heq Hrun) as ->.
    exists fuel, s', g'. split; [exact Hrun|].
    destruct (Hlen _ _ _ _ _ Hrun) as [Hl _]. exact Hl.
Qed.

Lemma MoveSnake_length_witness :
  (exists g, fair g start_fed) /\
  (forall g, fair g start_fed -> exists fuel, is_Some (MoveSnake fuel g 1 start_fed)) /\
  (forall fuel g r s' g',
      MoveSnake fuel g 1 start_fed = Some (r, s', g') ->
      GetSnakeLength s' =
        (if (r =? 2) && (snakeLength start_fed <? MAX_SNAKE_LENGTH)
         then GetSnakeLength start_fed + 1 else GetSnakeLength start_fed) /\
      (r = 2 -> new_head 1 start_fed = food start_fed) /\
      (r = 2 <-> clear_of_body 1 start_fed /\ new_head 1 start_fed = food start_fed)) /\
  (clear_of_body 1 start_fed -> new_head 1 start_fed = food start_fed ->
   forall g, fair g start_fed ->
   exists fuel s' g',
     MoveSnake fuel g 1 start_fed = Some (2, s', g') /\
     GetSnakeLength s' =
       (if snakeLength start_fed <? MAX_SNAKE_LENGTH
        then GetSnakeLength start_fed + 1 else GetSnakeLength start_fed)).
Proof.
  apply (MoveSnake_length 1 start_fed).
  - split; [reflexivity | unfold MAX_SNAKE_LENGTH; simpl; lia].
  - reflexivity.
Defined.

(** With a direction code outside 0..3 the [switch] moves nothing: the
    new head is the old head, put through the edge tests. *)
Lemma new_head_malformed d s :
  3 < d < 256 -> new_head d s = wrap_head (snake s !!! 0%nat).
Proof.
  intros Hd. unfold new_head. rewrite to_u8_small by lia.
  rewrite step_head_invalid by lia. reflexivity.
Qed.

Lemma take_1_head (a : list Point.t) :
  (0 < length a)%nat -> take 1 a = [a !!! 0%nat].
Proof. intros Hlen. destruct a as [|p a]; [simpl in Hlen; lia | reflexivity]. Qed.

(** C2, as the code has it. A direction code outside 0..3 is not a
    no-op: the [switch] leaves the new head on the old head (after the
    edge tests, which keep a head that is on the board), and [MoveSnake]
    then runs as for any move onto that cell, on every running game:
    - if the second segment is on that cell (as after an earlier
      malformed call), the reversal guard returns 1 and nothing changes;
    - else if a later segment is on it, [gameOver] is set and the result
      is 0;
    - else if the food is elsewhere, the result is 1 and the length, the
      food and [gameOver] are kept, but the body is shifted as by a plain
      move: slot 0 holds the head, slot [k] takes the old segment
      [k - 1], the old tail is dropped;
    - else, below capacity, the result is 2: the snake grows by the head
      cell and a new food is drawn;
    - else, with the array full, the result is 2 and only [snake[0]] is
      written. *)
Theorem MoveSnake_invalid_direction (fuel : nat) (g : Rng.t) (d : Z) (s : Game) :
  wf s -> gameOver s = false ->
  3 < d < 256 ->
  let head := snake s !!! 0%nat in
  let h := wrap_head head in
  let n := Z.to_nat (snakeLength s) in
  (new_head d s = h /\ (on_board head -> h = head)) /\
  (1 < snakeLength s -> snake s !!! 1%nat = h ->
   MoveSnake fuel g d s = Some (1, s, g)) /\
  (~ (1 < snakeLength s /\ snake s !!! 1%nat = h) ->
   (exists k, (2 <= k < n)%nat /\ snake s !!! k = h) ->
   MoveSnake fuel g d s = Some (0, set_gameOver true s, g)) /\
  (clear_of_body d s -> h <> food s ->
   MoveSnake fuel g d s =
     Some (1, set_snake (h :: take (n - 1) (snake s)
                           ++ drop (Nat.max n 1) (snake s)) s, g)) /\
  (clear_of_body d s -> h = food s -> snakeLength s < MAX_SNAKE_LENGTH ->
   forall k,
     (forall j, (j < k)%nat -> sample g j ∈ head :: body s) ->
     sample g k ∉ head :: body s ->
     (k < fuel)%nat ->
     MoveSnake fuel g d s =
       Some (2, mkGame (h :: take n (snake s) ++ drop (S n) (snake s))
                       (snakeLength s + 1) (sample g k) false,
             Rng.mk (Rng.draws g) (Rng.pos g + 2 * S k))) /\
  (clear_of_body d s -> h = food s -> snakeLength s = MAX_SNAKE_LENGTH ->
   MoveSnake fuel g d s = Some (2, set_snake (<[0%nat := h]> (snake s)) s, g) /\
   (on_board head -> set_snake (<[0%nat := h]> (snake s)) s = s)).
Proof.
  intros Hwf Hover Hd head h n.
  destruct (wf_sizes s Hwf) as [Harr Hbound].
  pose proof (new_head_malformed d s Hd) as Hnew. fold head h in Hnew.
  assert (Hkeep : on_board head -> h = head)
    by (intros Hon; apply wrap_head_on_board; exact Hon).
  split; [split; [exact Hnew | exact Hkeep]|].
  split; [|split; [|split; [|split]]].
  - intros Hl Hrev. unfold MoveSnake. rewrite Hover, Hnew.
    assert (Hguard : (1 <? snakeLength s)
                     && Point.eqb (snake s !!! 1%nat) h = true).
    { apply andb_true_iff. split; [lia|]. apply point_eqb_eq. exact Hrev. }
    rewrite Hguard. reflexivity.
  - intros Hnrev (k & Hk & Heq). unfold MoveSnake. rewrite Hover, Hnew.
    assert (Hguard : (1 <? snakeLength s)
                     && Point.eqb (snake s !!! 1%nat) h = false).
    { apply andb_false_iff.
      destruct (decide (1 < snakeLength s)) as [Hl|Hl]; [right | left; lia].
      apply point_eqb_neq. intros Heq1. apply Hnrev. split; assumption. }
    rewrite Hguard.
    assert (Hhit : hits 2 (Z.to_nat (snakeLength s - 2)) (snake s) h = true).
    { apply hits_true. exists k. split; [subst n; lia | exact Heq]. }
    rewrite Hhit. reflexivity.
  - intros Hclear Hfood. rewrite MoveSnake_past_guards by assumption.
    rewrite Hnew.
    assert (Hne : Point.eqb h (food s) = false) by (apply point_eqb_neq; exact Hfood).
    rewrite Hne. cbn [negb]. do 3 f_equal.
    destruct (decide (snakeLength s = 0)) as [Hz|Hnz].
    + rewrite Hz. change (Z.to_nat (to_i8 (0 - 1))) with 0%nat. cbn [shift_body].
      assert (Hn0 : n = 0%nat) by (subst n; lia). rewrite Hn0. cbn [Nat.sub Nat.max take app].
      destruct (snake s) as [|p a]; [simpl in Harr; lia | reflexivity].
    + rewrite to_i8_small by lia.
      replace (Z.to_nat (snakeLength s - 1)) with (n - 1)%nat by (subst n; lia).
      rewrite place_head_spec by (rewrite Harr; subst n; lia).
      replace (S (n - 1)) with (Nat.max n 1) by (subst n; lia). reflexivity.
  - intros Hclear Hfood Hcap k Hbefore Hfree Hfuel.
    assert (Hscan : forall p, p ∈ body (grow s) <-> p ∈ head :: body s).
    { intros p. unfold body at 1. rewrite grow_scan by assumption.
      rewrite take_1_head by (rewrite Harr; lia). fold (body s). reflexivity. }
    assert (Hsize : (Z.to_nat (snakeLength (grow s)) <= length (snake (grow s)))%nat).
    { rewrite grow_length by assumption. unfold grow; cbn [snake].
      rewrite shift_body_length, Harr. unfold MAX_SNAKE_LENGTH in Hcap. lia. }
    rewrite MoveSnake_past_guards by assumption. rewrite Hnew.
    assert (Heq : Point.eqb h (food s) = true) by (apply point_eqb_eq; exact Hfood).
    rewrite Heq. cbn [negb].
    assert (Hlt : (snakeLength s <? MAX_SNAKE_LENGTH) = true) by lia.
    rewrite Hlt.
    rewrite (GenerateFood_first_accepted k).
    + unfold set_snake. cbn [set_food snake snakeLength food gameOver].
      rewrite grow_snake, grow_length by assumption.
      unfold grow at 1; cbn [gameOver]. rewrite Hover. reflexivity.
    + intros j Hj. apply food_on_snake_body_true; [exact Hsize|].
      apply Hscan. apply Hbefore. exact Hj.
    + apply food_on_snake_body; [exact Hsize|].
      intros Hin. apply Hfree. apply Hscan. exact Hin.
    + exact Hfuel.
  - intros Hclear Hfood Hfull. split.
    + rewrite MoveSnake_past_guards by assumption. rewrite Hnew.
      assert (Heq : Point.eqb h (food s) = true) by (apply point_eqb_eq; exact Hfood).
      rewrite Heq. cbn [negb].
      assert (Hge : (snakeLength s <? MAX_SNAKE_LENGTH) = false) by lia.
      rewrite Hge. reflexivity.
    + intros Hon. rewrite (Hkeep Hon). unfold set_snake.
      destruct s as [a len f b]; cbn [snake snakeLength food gameOver] in *.
      f_equal. subst head. destruct a as [|p a]; [simpl in Harr; lia | reflexivity].
Qed.

Lemma MoveSnake_invalid_direction_witness :
  (new_head 4 start = wrap_head (snake start !!! 0%nat) /\
   (on_board (snake start !!! 0%nat) ->
    wrap_head (snake start !!! 0%nat) = snake start !!! 0%nat)) /\
  (1 < snakeLength start ->
   snake start !!! 1%nat = wrap_head (snake start !!! 0%nat) ->
   MoveSnake 1 rng0 4 start = Some (1, start, rng0)) /\
  (~ (1 < snakeLength start /\
      snake start !!! 1%nat = wrap_head (snake start !!! 0%nat)) ->
   (exists k, (2 <= k < Z.to_nat (snakeLength start))%nat /\
              snake start !!! k = wrap_head (snake start !!! 0%nat)) ->
   MoveSnake 1 rng0 4 start = Some (0, set_gameOver true start, rng0)) /\
  (clear_of_body 4 start ->
   wrap_head (snake start !!! 0%nat) <> food start ->
   MoveSnake 1 rng0 4 start =
     Some (1, set_snake
                (wrap_head (snake start !!! 0%nat)
                   :: take (Z.to_nat (snakeLength start) - 1) (snake start)
                   ++ drop (Nat.max (Z.to_nat (snakeLength start)) 1)
                           (snake start)) start, rng0)) /\
  (clear_of_body 4 start ->
   wrap_head (snake start !!! 0%nat) = food start ->
   snakeLength start < MAX_SNAKE_LENGTH ->
   forall k,
     (forall j, (j < k)%nat ->
                sample rng0 j ∈ snake start !!! 0%nat :: body start) ->
     sample rng0 k ∉ snake start !!! 0%nat :: body start ->
     (k < 1)%nat ->
     MoveSnake 1 rng0 4 start =
       Some (2, mkGame (wrap_head (snake start !!! 0%nat)
                          :: take (Z.to_nat (snakeLength start)) (snake start)
                          ++ drop (S (Z.to_nat (snakeLength start)))
                                  (snake start))
                       (snakeLength start + 1) (sample rng0 k) false,
             Rng.mk (Rng.draws rng0) (Rng.pos rng0 + 2 * S k))) /\
  (clear_of_body 4 start ->
   wrap_head (snake start !!! 0%nat) = food start ->
   snakeLength start = MAX_SNAKE_LENGTH ->
   MoveSnake 1 rng0 4 start
     = Some (2, set_snake (<[0%nat := wrap_head (snake start !!! 0%nat)]>
                             (snake start)) start, rng0) /\
   (on_board (snake start !!! 0%nat) ->
    set_snake (<[0%nat := wrap_head (snake start !!! 0%nat)]> (snake start))
              start = start)).
Proof.
  apply (MoveSnake_invalid_direction 1 rng0 4 start).
  - split; [reflexivity | unfold MAX_SNAKE_LENGTH; simpl; lia].
  - reflexivity.
  - lia.
Defined.

(** The three ways a malformed direction shows, on games play reaches:
    the body shift on the starting game; the no-op on the game that
    shift leaves; the growth when the food lies under the head (as the
    growing move to the right with first draw (4,5) leaves it). *)
Example malformed_direction_runs :
  let shifted := set_snake ([Point.mk 4 4; Point.mk 4 4; Point.mk 3 4]
                              ++ drop 3 (snake start)) start in
  let fed := mkGame ([Point.mk 4 5; Point.mk 4 4; Point.mk 3 4; Point.mk 2 4]
                       ++ drop 4 (snake start)) 4 (Point.mk 4 5) false in
  MoveSnake 1 rng0 4 start = Some (1, shifted, rng0) /\
  MoveSnake 1 rng0 4 shifted = Some (1, shifted, rng0) /\
  MoveSnake 1 (draws_cell (Point.mk 4 5)) 1 start_fed
    = Some (2, fed, Rng.mk (Rng.draws (draws_cell (Point.mk 4 5))) 2) /\
  option_map (fun out => (fst (fst out), snakeLength (snd (fst out)),
                          food (snd (fst out))))
             (MoveSnake 1 rng0 4 fed)
    = Some (2, 5, Point.mk 0 0).
Proof. repeat split. Qed.

End SnakeMoveTheorems.
